(** * A shallow embedding of the math-tutor RAG backend

    The development follows the Python sources under [backend/]:
    - [rate_limiting.py]      : the sliding-window limiter [AdvancedRateLimiter];
    - [error_handling.py]     : [validate_input], [sanitize_response] and
                                the error responses;
    - [config.py]             : the [Settings] record;
    - [rag_service_gemini.py] : embedding, retrieval, prompt assembly, the
                                retry loop and [generate_response];
    - [main.py]               : the body of the [chat] endpoint.

    Conventions of the embedding.
    - A Python [str] whose code points are all below 256 is a [list ascii],
      one [ascii] per code point; [len] is [length].
    - A Python [float] holding a clock reading or a similarity score is the
      rational it denotes ([Q]); only comparisons and one subtraction or
      addition are performed on them.
    - A Python [int] is a [Z].
    - [time.time()] is an input: every operation that reads the clock takes
      the reading as its argument [now].
    - The text handed to the embedding is a list of code points ([N]), so
      that text which cannot be encoded is there.
    - The vector store and the generation model are oracles given as
      functions; the calls of the model and the sleeps are recorded in a
      trace.  Calls of the logger are left out: they return nothing and the
      code reads nothing back from them. *)

From Stdlib Require Import ZArith QArith Lqa Lia Ascii String.
From stdpp Require Import base option list sorting gmap strings pretty.
From Equations Require Import Equations.

Local Open Scope Z_scope.

(** ** Rationals as clock readings *)

Definition Qltb (x y : Q) : bool := negb (Qle_bool y x).

(** ** rate_limiting.py *)

Module RateLimiting.
(** [AdvancedRateLimiter.__init__]: three [defaultdict]s keyed by the
    client address. *)
Record AdvancedRateLimiter := mkLimiter {
  requests : gmap string (list Q);
  minute_counts : gmap string Z;
  last_minute_reset : gmap string Q
}.

Definition init : AdvancedRateLimiter :=
  {| requests := ∅; minute_counts := ∅; last_minute_reset := ∅ |}.

(** [self.requests[ip]] read on a [defaultdict(lambda: deque())]: the
    value stored under [ip], an empty deque when the key is missing. *)
Definition window (rl : AdvancedRateLimiter) (ip : string) : list Q :=
  default [] (requests rl !! ip).

Definition set_window (rl : AdvancedRateLimiter) (ip : string) (d : list Q)
  : AdvancedRateLimiter :=
  {| requests := <[ip := d]> (requests rl);
     minute_counts := minute_counts rl;
     last_minute_reset := last_minute_reset rl |}.

(** The loop
    [while self.requests[ip] and self.requests[ip][0] < cutoff: popleft()]. *)
Fixpoint evict (cutoff : Q) (d : list Q) : list Q :=
  match d with
  | [] => []
  | t :: d' => if Qltb t cutoff then evict cutoff d' else d
  end.

(** [is_allowed(ip, max_requests, window_seconds)] with the clock reading
    [now].  The result is the returned boolean and the limiter after the
    call; reading [self.requests[ip]] creates the key, so the key is
    always present afterwards. *)
Definition is_allowed (rl : AdvancedRateLimiter) (ip : string)
    (max_requests window_seconds : Z) (now : Q)
  : bool * AdvancedRateLimiter :=
  let current_time := now in
  let d := evict (current_time - inject_Z window_seconds) (window rl ip) in
  if Z.of_nat (length d) >=? max_requests
  then (false, set_window rl ip d)
  else (true, set_window rl ip (d ++ [current_time])).

(** [get_reset_time(ip, window_seconds)] with the clock reading [now]. *)
Definition get_reset_time (rl : AdvancedRateLimiter) (ip : string)
    (window_seconds : Z) (now : Q) : Q * AdvancedRateLimiter :=
  let rl' := set_window rl ip (window rl ip) in
  match window rl ip with
  | [] => (now, rl')
  | oldest_request :: _ => ((oldest_request + inject_Z window_seconds)%Q, rl')
  end.

(** [get_rate_limit_info] for the client [key]: the three entries of the
    returned dictionary, and the limiter afterwards.  The clock is read
    twice, here ([now1]) and inside [get_reset_time] ([now2]). *)
Record rate_limit_info := mkInfo {
  requests_remaining : Z;
  reset_time : Q;
  current_requests : Z
}.

Definition get_rate_limit_info (rl : AdvancedRateLimiter) (key : string)
    (now1 now2 : Q) : rate_limit_info * AdvancedRateLimiter :=
  let window_seconds := 60 in
  let request_count :=
    Z.of_nat (length (filter (fun req_time =>
                Qltb (now1 - inject_Z window_seconds) req_time = true)
                (window rl key))) in
  let rl1 := set_window rl key (window rl key) in
  let '(rt, rl2) := get_reset_time rl1 key window_seconds now2 in
  ({| requests_remaining := Z.max 0 (60 - request_count);
      reset_time := rt;
      current_requests := request_count |}, rl2).

(** A call of [is_allowed] as issued by a client. *)
Record call := mkCall {
  call_ip : string;
  call_window : Z;
  call_now : Q
}.

(** The limiter after a sequence of [is_allowed] calls that all use the
    same [max_requests]. *)
Fixpoint run (max_requests : Z) (rl : AdvancedRateLimiter) (cs : list call)
  : AdvancedRateLimiter :=
  match cs with
  | [] => rl
  | c :: cs' =>
      run max_requests
          (snd (is_allowed rl (call_ip c) max_requests (call_window c) (call_now c)))
          cs'
  end.

(** Non-decreasing clock readings along a sequence of calls. *)
Fixpoint clock_from (t0 : Q) (cs : list call) : Prop :=
  match cs with
  | [] => True
  | c :: cs' => (t0 <= call_now c)%Q /\ clock_from (call_now c) cs'
  end.

Definition clock_nondecreasing (cs : list call) : Prop :=
  match cs with
  | [] => True
  | c :: cs' => clock_from (call_now c) cs'
  end.

(** Following the spec's words for [resetTime]: evict what has aged out,
    then the oldest retained entry plus the window, or the current time
    when nothing is retained. *)
Definition reset_time_spec (rl : AdvancedRateLimiter) (ip : string)
    (window_seconds : Z) (now : Q) : Q :=
  match evict (now - inject_Z window_seconds) (window rl ip) with
  | [] => now
  | oldest :: _ => (oldest + inject_Z window_seconds)%Q
  end.

(** Two invariants carried along a run.  Ordering: per key, the stored
    timestamps are in non-decreasing order and none is later than the last
    clock reading [t0].  Size: per key, at most [m] timestamps. *)
Definition window_sorted (t0 : Q) (d : list Q) : Prop :=
  Sorted Qle d /\ Forall (fun t => (t <= t0)%Q) d.

Definition window_bounded (m : Z) (d : list Q) : Prop :=
  Z.of_nat (length d) <= m.

(** [check_rate_limit(request, max_requests)]: the key is the address
    [get_remote_address(request)], and [window_seconds] is left at its
    default. *)
Definition check_rate_limit (rl : AdvancedRateLimiter) (key : string)
    (max_requests : Z) (now : Q) : bool * AdvancedRateLimiter :=
  is_allowed rl key max_requests 60 now.

(** The timestamps admitted for [ip] along a sequence of calls, oldest
    first: the clock readings of the calls on [ip] that returned [True]. *)
Fixpoint admitted (max_requests : Z) (ip : string) (rl : AdvancedRateLimiter)
    (cs : list call) : list Q :=
  match cs with
  | [] => []
  | c :: cs' =>
      let r := is_allowed rl (call_ip c) max_requests (call_window c) (call_now c) in
      (if fst r && bool_decide (call_ip c = ip) then [call_now c] else [])
        ++ admitted max_requests ip (snd r) cs'
  end.

(** The clock reading of the last call, [t0] when there is none. *)
Definition last_clock (t0 : Q) (cs : list call) : Q :=
  foldl (fun _ c => call_now c) t0 cs.

(** How many timestamps of [log] are at or after [cutoff], and how many lie
    in the closed interval from [lo] to [hi]. *)
Definition count_since (cutoff : Q) (log : list Q) : nat :=
  length (filter (fun t => Qle_bool cutoff t = true) log).

Definition count_between (lo hi : Q) (log : list Q) : nat :=
  length (filter (fun t => Qle_bool lo t && Qle_bool t hi = true) log).

(** What links the stored window of [ip] to the timestamps admitted so far:
    the window is the end of the log, and what the log holds before it has
    aged out at the last clock reading [t0]. *)
Definition history_ok (w : Z) (ip : string) (rl : AdvancedRateLimiter)
    (log : list Q) (t0 : Q) : Prop :=
  exists old,
    log = old ++ window rl ip
    /\ Forall (fun t => (t < t0 - inject_Z w)%Q) old
    /\ Sorted Qle log
    /\ Forall (fun t => (t <= t0)%Q) log.

(** No closed interval of length [w] holds more than [m] timestamps. *)
Definition interval_ok (m w : Z) (log : list Q) : Prop :=
  forall s, Z.of_nat (count_between s (s + inject_Z w) log) <= m.

End RateLimiting.

(** ** Python strings over code points below 256 *)

Module PyStr.

(** A string literal of the source, as a list of characters. *)
Definition lit (s : string) : list ascii := list_ascii_of_string s.

(** [str.isspace] on one character: the code points 9-13, 28-32, 133 and
    160 are the whitespace of [strip] and [split] below 256. *)
Definition is_space (c : ascii) : bool :=
  let n := N_of_ascii c in
  ((9 <=? n) && (n <=? 13) || (28 <=? n) && (n <=? 32) || (n =? 133) || (n =? 160))%N.

(** [str.lower] on one character: A-Z and the Latin-1 capitals 192-222
    (without the multiplication sign 215) move up by 32. *)
Definition lower_char (c : ascii) : ascii :=
  let n := N_of_ascii c in
  if ((65 <=? n) && (n <=? 90) || (192 <=? n) && (n <=? 222) && negb (n =? 215))%N
  then ascii_of_N (n + 32)
  else c.

Definition lower (s : list ascii) : list ascii := map lower_char s.

Fixpoint lstrip (s : list ascii) : list ascii :=
  match s with
  | [] => []
  | c :: s' => if is_space c then lstrip s' else s
  end.

Definition rstrip (s : list ascii) : list ascii := reverse (lstrip (reverse s)).

(** [s.strip()] *)
Definition strip (s : list ascii) : list ascii := rstrip (lstrip s).

(** [s.split()]: the maximal runs of non-whitespace characters, in order.
    [cur] holds the characters of the run being read, last one first. *)
Fixpoint split_from (cur : list ascii) (s : list ascii) : list (list ascii) :=
  match s with
  | [] => match cur with [] => [] | _ => [reverse cur] end
  | c :: s' =>
      if is_space c
      then match cur with
           | [] => split_from [] s'
           | _ => reverse cur :: split_from [] s'
           end
      else split_from (c :: cur) s'
  end.

Definition split (s : list ascii) : list (list ascii) := split_from [] s.

(** [s.startswith(p)] *)
Fixpoint startswith (p s : list ascii) : bool :=
  match p, s with
  | [], _ => true
  | _ :: _, [] => false
  | a :: p', b :: s' => Ascii.eqb a b && startswith p' s'
  end.

(** [p in s] for strings: [p] occurs in [s] at some position. *)
Fixpoint contains (p s : list ascii) : bool :=
  startswith p s ||
  match s with
  | [] => false
  | _ :: s' => contains p s'
  end.

(** [sep.join(parts)] *)
Fixpoint join (sep : list ascii) (parts : list (list ascii)) : list ascii :=
  match parts with
  | [] => []
  | [x] => x
  | x :: rest => x ++ sep ++ join sep rest
  end.

(** *** Regular expressions of the source: literal text matched with
    [re.IGNORECASE], and [open.*?close] with [re.DOTALL | re.IGNORECASE]. *)

(** One pattern character against one text character, ignoring case. *)
Definition char_ci (p c : ascii) : bool :=
  Ascii.eqb (lower_char p) (lower_char c).

(** The literal [p] matches at the start of [s], ignoring case. *)
Fixpoint startswith_ci (p s : list ascii) : bool :=
  match p, s with
  | [], _ => true
  | _ :: _, [] => false
  | a :: p', b :: s' => char_ci a b && startswith_ci p' s'
  end.

(** The offset of the first position of [s] at which [p] matches. *)
Fixpoint find_ci (p s : list ascii) : option nat :=
  if startswith_ci p s then Some 0%nat
  else match s with
       | [] => None
       | _ :: s' => S <$> find_ci p s'
       end.

(** Length of the match of the literal [p] anchored at the start of [s]. *)
Definition match_lit (p s : list ascii) : option nat :=
  if startswith_ci p s then Some (length p) else None.

(** Length of the match of [open.*?close] anchored at the start of [s]:
    [open], then as few characters as possible (newlines included), then
    [close]. *)
Definition match_span (open close s : list ascii) : option nat :=
  if startswith_ci open s
  then match find_ci close (drop (length open) s) with
       | Some k => Some (length open + k + length close)%nat
       | None => None
       end
  else None.

(** [re.sub(pattern, '', s)], the pattern given by its anchored matcher
    [m]: scanning from the left, a match is deleted and the scan resumes
    right after it; a character at which nothing matches is kept. *)
Equations? re_sub (m : list ascii -> option nat) (s : list ascii)
  : list ascii by wf (length s) lt :=
re_sub m [] := [];
re_sub m (c :: s') with m (c :: s') := {
  | None := c :: re_sub m s';
  | Some 0%nat := c :: re_sub m s';
  | Some (S n) := re_sub m (drop n s') }.
Proof. all: simpl; try rewrite length_drop; lia. Qed.

(** [p] occurs in [s] up to the case of its letters. *)
Definition occurs_ci (p s : list ascii) : Prop :=
  exists u m v, s = u ++ m ++ v /\ lower m = lower p.

(** Every character of [s] is whitespace (in particular, [s] is empty). *)
Definition whitespace_only (s : list ascii) : Prop :=
  Forall (fun c => is_space c = true) s.

(** The words of a text, told without [split]: a text of whitespace only
    has no word; otherwise the text is whitespace, then its first word,
    which is not empty, holds no whitespace and ends where the text ends or
    where whitespace follows, then a text with the remaining words. *)
Inductive words_of : list ascii -> list (list ascii) -> Prop :=
| words_none s :
    whitespace_only s -> words_of s []
| words_next u w rest ws :
    whitespace_only u ->
    w <> [] ->
    Forall (fun c => is_space c = false) w ->
    (rest = [] \/ exists c rest', rest = c :: rest' /\ is_space c = true) ->
    words_of rest ws ->
    words_of (u ++ w ++ rest) (w :: ws).

End PyStr.

(** ** error_handling.py *)

Module ErrorHandling.
Import PyStr.

(** The exception classes of the module; [OtherException] stands for any
    exception that is not a [RAGError]. *)
Inductive exn :=
| RAGError (msg : list ascii)
| VectorDBError (msg : list ascii)
| OpenAIError (msg : list ascii)
| ValidationError (msg : list ascii)
| RateLimitError (msg : list ascii)
| OtherException (msg : list ascii).

(** [str(e)] *)
Definition exn_str (e : exn) : list ascii :=
  match e with
  | RAGError m | VectorDBError m | OpenAIError m
  | ValidationError m | RateLimitError m | OtherException m => m
  end.

(** [isinstance(e, RAGError)]: every class of the module derives from it. *)
Definition is_RAGError (e : exn) : bool :=
  match e with OtherException _ => false | _ => true end.

Inductive result (A : Type) :=
| Return (a : A)
| Raise (e : exn).
Arguments Return {A} a.
Arguments Raise {A} e.

Definition dangerous_patterns : list (list ascii) :=
  [lit "<script"; lit "javascript:"; lit "data:"; lit "vbscript:";
   lit "onload="; lit "onerror="; lit "onclick="].

(** The counting loop [word_counts[word] = word_counts.get(word, 0) + 1]. *)
Definition count_words (words : list (list ascii)) : gmap (list ascii) Z :=
  foldl (fun word_counts word =>
           <[word := default 0 (word_counts !! word) + 1]> word_counts)
        ∅ words.

(** [max(word_counts.values())]; the dictionary is never empty where the
    source takes the maximum, and its values are positive. *)
Definition max_values (word_counts : gmap (list ascii) Z) : Z :=
  foldr Z.max 0 (snd <$> map_to_list word_counts).

(** [validate_input(message)].  [max_repetition > len(words) * 0.5] compares
    an integer with an exact half-integer: [len(words) < 2 * max_repetition]. *)
Definition validate_input (message : list ascii) : result unit :=
  if bool_decide (message = []) || bool_decide (strip message = []) then
    Raise (ValidationError (lit "Message cannot be empty"))
  else if (2000 <? length message)%nat then
    Raise (ValidationError
             (lit "Message is too long. Please keep it under 2000 characters."))
  else
    let message_lower := lower message in
    if existsb (fun pattern => contains pattern message_lower) dangerous_patterns then
      Raise (ValidationError (lit "Message contains potentially harmful content"))
    else
      let words := split message in
      if (10 <? length words)%nat then
        let word_counts := count_words words in
        let max_repetition := max_values word_counts in
        if Z.of_nat (length words) <? 2 * max_repetition then
          Raise (ValidationError
                   (lit "Message appears to contain excessive repetition"))
        else Return tt
      else Return tt.

(** [sanitize_response(response)] *)
Definition sanitize_response (response : list ascii) : list ascii :=
  let response := re_sub (match_span (lit "<script") (lit "</script>")) response in
  let response := re_sub (match_lit (lit "javascript:")) response in
  let response := re_sub (match_lit (lit "data:")) response in
  let response :=
    if (5000 <? length response)%nat
    then take 5000 response ++ lit "..."
    else response in
  strip response.

(** How many of the [words] are the word [w]. *)
Definition occurrences (w : list ascii) (words : list (list ascii)) : nat :=
  length (filter (fun x => x = w) words).

(** More than ten words, one of them making up over half of all words. *)
Definition repeats_excessively (message : list ascii) : Prop :=
  let words := split message in
  (10 < length words)%nat /\
  exists w, (length words < 2 * occurrences w words)%nat.

(** An unsafe pattern occurs in the message, whatever the case of its
    letters. *)
Definition has_unsafe_pattern (message : list ascii) : Prop :=
  exists pattern, pattern ∈ dangerous_patterns /\ occurs_ci pattern message.

(** The status code and the ["error"] dictionary of an error
    [JSONResponse]; ["details"] and ["retry_after"] are entries of some
    responses only, and ["success"] is [False] in all of them. *)
Record JSONResponse := mkJSONResponse {
  status_code : Z;
  body_type : list ascii;
  body_message : list ascii;
  body_details : option (list (list ascii * list ascii));
  body_retry_after : option Q
}.

(** [create_error_response(error_type, message, details, status_code)];
    [details or {}] is the empty dictionary for [None]. *)
Definition create_error_response (error_type message : list ascii)
    (details : option (list (list ascii * list ascii))) (status_code : Z)
  : JSONResponse :=
  mkJSONResponse status_code error_type message (Some (default [] details)) None.

(** [global_exception_handler(request, exc)] *)
Definition global_exception_handler (exc : exn) : JSONResponse :=
  create_error_response (lit "InternalServerError")
    (lit "An unexpected error occurred. Please try again later.") None 500.

(** [handle_openai_error(exc)] *)
Definition handle_openai_error (exc : exn) : JSONResponse :=
  let error_message := exn_str exc in
  if contains (lit "rate_limit") (lower error_message) then
    create_error_response (lit "RateLimitError")
      (lit "API rate limit exceeded. Please try again in a moment.") None 429
  else if contains (lit "invalid_api_key") (lower error_message) then
    create_error_response (lit "AuthenticationError")
      (lit "Invalid API key. Please check your configuration.") None 401
  else if contains (lit "insufficient_quota") (lower error_message) then
    create_error_response (lit "QuotaExceededError")
      (lit "API quota exceeded. Please check your OpenAI account.") None 402
  else
    create_error_response (lit "OpenAIError")
      (lit "OpenAI API error occurred. Please try again.") None 502.

(** [handle_vector_db_error(exc)] *)
Definition handle_vector_db_error (exc : exn) : JSONResponse :=
  create_error_response (lit "VectorDBError")
    (lit "Vector database error. Please ensure the database is properly initialized.")
    None 503.

End ErrorHandling.

(** ** config.py *)

Module Config.

(** The fields of [Settings] that the service reads, and [vector_dimension].
    Each may be overridden from the environment. *)
Record Settings := mkSettings {
  gemini_model : string;
  gemini_temperature : Q;
  gemini_max_tokens : Z;
  vector_dimension : Z;
  max_requests_per_minute : Z;
  max_context_chunks : Z;
  similarity_threshold : Q
}.

(** The defaults written in the class body. *)
Definition default_settings : Settings :=
  {| gemini_model := "gemini-2.0-flash";
     gemini_temperature := 2 # 10;
     gemini_max_tokens := 1200;
     vector_dimension := 384;
     max_requests_per_minute := 60;
     max_context_chunks := 5;
     similarity_threshold := 7 # 10 |}.

End Config.

(** ** hashlib.md5 and str.encode, the library calls of the embedding *)

Module Hashlib.

Local Open Scope N_scope.

(** [text.encode()]: UTF-8 of a sequence of code points.  A surrogate
    (U+D800 to U+DFFF) cannot be encoded: [UnicodeEncodeError]. *)
Definition encode_char (cp : N) : option (list N) :=
  if cp <? 0x80 then Some [cp]
  else if cp <? 0x800 then
    Some [N.lor 0xC0 (N.shiftr cp 6); N.lor 0x80 (N.land cp 0x3F)]
  else if (0xD800 <=? cp) && (cp <=? 0xDFFF) then None
  else if cp <? 0x10000 then
    Some [N.lor 0xE0 (N.shiftr cp 12);
          N.lor 0x80 (N.land (N.shiftr cp 6) 0x3F);
          N.lor 0x80 (N.land cp 0x3F)]
  else if cp <? 0x110000 then
    Some [N.lor 0xF0 (N.shiftr cp 18);
          N.lor 0x80 (N.land (N.shiftr cp 12) 0x3F);
          N.lor 0x80 (N.land (N.shiftr cp 6) 0x3F);
          N.lor 0x80 (N.land cp 0x3F)]
  else None.

Fixpoint encode (text : list N) : option (list N) :=
  match text with
  | [] => Some []
  | cp :: text' =>
      match encode_char cp, encode text' with
      | Some b, Some bs => Some (b ++ bs)
      | _, _ => None
      end
  end.

(** MD5 (RFC 1321) on 32-bit words held in [N]. *)
Definition add32 (x y : N) : N := (x + y) mod 2 ^ 32.

Definition rotl32 (x c : N) : N :=
  N.lor (N.shiftl x c mod 2 ^ 32) (N.shiftr x (32 - c)).

Definition not32 (x : N) : N := N.lxor x 0xFFFFFFFF.

Definition md5_shifts : list N :=
  [7; 12; 17; 22; 7; 12; 17; 22; 7; 12; 17; 22; 7; 12; 17; 22;
   5; 9; 14; 20; 5; 9; 14; 20; 5; 9; 14; 20; 5; 9; 14; 20;
   4; 11; 16; 23; 4; 11; 16; 23; 4; 11; 16; 23; 4; 11; 16; 23;
   6; 10; 15; 21; 6; 10; 15; 21; 6; 10; 15; 21; 6; 10; 15; 21].

Definition md5_sines : list N :=
  [0xd76aa478; 0xe8c7b756; 0x242070db; 0xc1bdceee; 0xf57c0faf; 0x4787c62a;
   0xa8304613; 0xfd469501; 0x698098d8; 0x8b44f7af; 0xffff5bb1; 0x895cd7be;
   0x6b901122; 0xfd987193; 0xa679438e; 0x49b40821; 0xf61e2562; 0xc040b340;
   0x265e5a51; 0xe9b6c7aa; 0xd62f105d; 0x02441453; 0xd8a1e681; 0xe7d3fbc8;
   0x21e1cde6; 0xc33707d6; 0xf4d50d87; 0x455a14ed; 0xa9e3e905; 0xfcefa3f8;
   0x676f02d9; 0x8d2a4c8a; 0xfffa3942; 0x8771f681; 0x6d9d6122; 0xfde5380c;
   0xa4beea44; 0x4bdecfa9; 0xf6bb4b60; 0xbebfbc70; 0x289b7ec6; 0xeaa127fa;
   0xd4ef3085; 0x04881d05; 0xd9d4d039; 0xe6db99e5; 0x1fa27cf8; 0xc4ac5665;
   0xf4292244; 0x432aff97; 0xab9423a7; 0xfc93a039; 0x655b59c3; 0x8f0ccc92;
   0xffeff47d; 0x85845dd1; 0x6fa87e4f; 0xfe2ce6e0; 0xa3014314; 0x4e0811a1;
   0xf7537e82; 0xbd3af235; 0x2ad7d2bb; 0xeb86d391].

(** The little-endian value of a run of bytes, and back. *)
Fixpoint le_value (bytes : list N) : N :=
  match bytes with
  | [] => 0
  | b :: bytes' => b + 256 * le_value bytes'
  end.

Fixpoint le_bytes (n : nat) (v : N) : list N :=
  match n with
  | O => []
  | S n' => v mod 256 :: le_bytes n' (v / 256)
  end.

Definition md5_pad (msg : list N) : list N :=
  let len := N.of_nat (length msg) in
  let zeros := (55 + 64 - len mod 64) mod 64 in
  msg ++ [0x80] ++ repeat 0 (N.to_nat zeros) ++ le_bytes 8 ((8 * len) mod 2 ^ 64).

Definition md5_step (M : list N) (st : N * N * N * N) (i : nat)
  : N * N * N * N :=
  let '(A, B, C, D) := st in
  let j := N.of_nat i in
  let '(F, g) :=
    if j <? 16 then (N.lor (N.land B C) (N.land (not32 B) D), j)
    else if j <? 32 then
      (N.lor (N.land D B) (N.land (not32 D) C), (5 * j + 1) mod 16)
    else if j <? 48 then (N.lxor B (N.lxor C D), (3 * j + 5) mod 16)
    else (N.lxor C (N.lor B (not32 D)), (7 * j) mod 16) in
  let F' := add32 (add32 (add32 F A) (nth i md5_sines 0)) (nth (N.to_nat g) M 0) in
  (D, add32 B (rotl32 F' (nth i md5_shifts 0)), B, C).

Definition md5_block (st : N * N * N * N) (block : list N) : N * N * N * N :=
  let M := map (fun k => le_value (take 4 (drop (4 * k) block))) (seq 0 16) in
  let '(a0, b0, c0, d0) := st in
  let '(A, B, C, D) := foldl (md5_step M) st (seq 0 64) in
  (add32 a0 A, add32 b0 B, add32 c0 C, add32 d0 D).

(** [hashlib.md5(data).digest()]: sixteen bytes. *)
Definition md5_digest (data : list N) : list N :=
  let padded := md5_pad data in
  let blocks :=
    map (fun k => take 64 (drop (64 * k) padded)) (seq 0 (length padded / 64)) in
  let '(a, b, c, d) :=
    foldl md5_block (0x67452301, 0xefcdab89, 0x98badcfe, 0x10325476) blocks in
  le_bytes 4 a ++ le_bytes 4 b ++ le_bytes 4 c ++ le_bytes 4 d.

Definition hex_digit (v : N) : ascii :=
  if v <? 10 then ascii_of_N (48 + v) else ascii_of_N (87 + v).

(** [hashlib.md5(data).hexdigest()]: two lowercase hex digits per byte. *)
Definition md5_hexdigest (data : list N) : list ascii :=
  flat_map (fun b => [hex_digit (b / 16); hex_digit (b mod 16)]) (md5_digest data).

(** The value of one hexadecimal digit. *)
Definition hex_value (c : ascii) : option N :=
  let n := N_of_ascii c in
  if (48 <=? n) && (n <=? 57) then Some (n - 48)
  else if (97 <=? n) && (n <=? 102) then Some (n - 87)
  else if (65 <=? n) && (n <=? 70) then Some (n - 55)
  else None.

(** [int(s, 16)] on a slice of a hexdigest: one or two hexadecimal digits;
    anything else is a [ValueError]. *)
Definition int16 (s : list ascii) : option N :=
  match s with
  | [c] => hex_value c
  | [c1; c2] =>
      match hex_value c1, hex_value c2 with
      | Some h, Some l => Some (16 * h + l)
      | _, _ => None
      end
  | _ => None
  end.

End Hashlib.

(** ** rag_service_gemini.py *)

Module RagService.
Import PyStr ErrorHandling Config Hashlib.

(** One match of a Pinecone answer: its metadata dictionary, when the key
    is there and holds one, and its score, when it has one. *)
Record match_ := mkMatch {
  metadata : option (gmap string (list ascii));
  score : option Q
}.

(** What [index.query] answers: a mapping with a [matches] key, an object
    with a [matches] attribute, or something with neither (or falsy). *)
Inductive search_results :=
| DictResults (matches : list match_)
| ObjectResults (matches : list match_)
| NoMatches.

(** The vector store: [index.query(vector, top_k, include_metadata=True)]
    answers or raises. *)
Definition Index := list Q -> Z -> result search_results.

(** The generation model: what the [n]-th call of the process made with a
    prompt gives, the text of the response or an exception. *)
Definition Model := nat -> list ascii -> result (list ascii).

Record GeminiRAGService := mkService {
  index : option Index;
  model : Model
}.

(** What the service does to the outside: calls of the model and sleeps. *)
Inductive event :=
| LlmCall (prompt : list ascii)
| Sleep (seconds : Z).

(** The state threaded through a request: how many model calls the process
    has made, and the events so far, oldest first. *)
Record world := mkWorld {
  calls : nat;
  trace : list event
}.

(** The loop [for i in range(0, len(text_hash), 2)]: each slice
    [text_hash[i:i+2]] read as a hexadecimal number and divided by 255. *)
Fixpoint hash_values (text_hash : list ascii) : option (list Q) :=
  match text_hash with
  | [] => Some []
  | [c] =>
      match int16 [c] with
      | Some v => Some [Z.of_N v # 255]
      | None => None
      end
  | c1 :: c2 :: rest =>
      match int16 [c1; c2], hash_values rest with
      | Some v, Some vs => Some ((Z.of_N v # 255) :: vs)
      | _, _ => None
      end
  end.

(** [_get_free_embedding(text)].  The [try] body fails when [text] cannot
    be encoded or a slice of the hash is not hexadecimal; the handler returns
    the zero vector. *)
Definition _get_free_embedding (text : list N) : list Q :=
  match encode text with
  | None => repeat 0%Q 384
  | Some data =>
      let text_hash := md5_hexdigest data in
      match hash_values text_hash with
      | None => repeat 0%Q 384
      | Some embedding =>
          let embedding := embedding ++ repeat 0%Q (384 - length embedding) in
          take 384 embedding
      end
  end.

(** The code points of a string kept below 256. *)
Definition code_points (s : list ascii) : list N := map N_of_ascii s.

(** [_enhance_query(query)]: the dictionary in its insertion order. *)
Definition math_keywords : list (list ascii * list ascii) :=
  [(lit "solve", lit "solution steps method");
   (lit "calculate", lit "calculation formula");
   (lit "explain", lit "explanation concept definition");
   (lit "what is", lit "definition meaning concept");
   (lit "how to", lit "steps method procedure");
   (lit "find", lit "solution answer result")].

Fixpoint enhance_with (table : list (list ascii * list ascii))
    (query_lower enhanced_query : list ascii) : list ascii :=
  match table with
  | [] => enhanced_query
  | (keyword, additions) :: table' =>
      if contains keyword query_lower
      then enhanced_query ++ lit " " ++ additions
      else enhance_with table' query_lower enhanced_query
  end.

Definition _enhance_query (query : list ascii) : list ascii :=
  enhance_with math_keywords (lower query) query.

(** The text of a match that carries one:
    ['metadata' in match and match['metadata'] and 'text' in match['metadata']]. *)
Definition match_text (m : match_) : option (list ascii) :=
  match metadata m with
  | Some md => if decide (md = ∅) then None else md !! "text"%string
  | None => None
  end.

(** The extraction loop: [documents] and [similarity_scores], zipped. *)
Definition passages (matches : list match_) : list (list ascii * Q) :=
  omap (fun m => match match_text m with
                 | Some text => Some (text, default 0%Q (score m))
                 | None => None
                 end) matches.

Definition extract (r : search_results) : list (list ascii * Q) :=
  match r with
  | DictResults matches | ObjectResults matches => passages matches
  | NoMatches => []
  end.

(** [n_results or settings.max_context_chunks] *)
Definition top_k (st : Settings) (n_results : option Z) : Z :=
  match n_results with
  | Some n => if n =? 0 then max_context_chunks st else n
  | None => max_context_chunks st
  end.

(** The vector sent to the store: the embedding of the enhanced query. *)
Definition query_vector (query : list ascii) : list Q :=
  let enhanced_query := _enhance_query query in
  _get_free_embedding (code_points enhanced_query).

(** The filter loop over [zip(documents, similarity_scores)]. *)
Definition keep_relevant (st : Settings) (found : list (list ascii * Q))
  : list (list ascii * Q) :=
  filter (fun p => Qle_bool (similarity_threshold st) (snd p) = true) found.

(** [_get_relevant_context(query, n_results)] *)
Definition _get_relevant_context (st : Settings) (self : GeminiRAGService)
    (query : list ascii) (n_results : option Z)
  : result (list (list ascii) * list Q) :=
  match index self with
  | None => Raise (VectorDBError (lit "Pinecone index not initialized"))
  | Some idx =>
      let n_results := top_k st n_results in
      match idx (query_vector query) n_results with
      | Raise e =>
          Raise (VectorDBError (lit "Pinecone search failed: " ++ exn_str e))
      | Return search_results =>
          let kept := keep_relevant st (extract search_results) in
          Return (map fst kept, map snd kept)
      end
  end.

(** The deduplication loop of [_construct_enhanced_prompt]: [unique_context]
    and [seen_content] after the chunks have been read. *)
Definition dedup_step (acc : list (list ascii) * gset (list ascii))
    (chunk : list ascii) : list (list ascii) * gset (list ascii) :=
  let '(unique_context, seen_content) := acc in
  let chunk_key := take 50 chunk in
  if decide (chunk_key ∈ seen_content)
  then (unique_context, seen_content)
  else (unique_context ++ [chunk], {[chunk_key]} ∪ seen_content).

Definition unique_context (context_chunks : list (list ascii)) : list (list ascii) :=
  fst (foldl dedup_step ([], ∅) context_chunks).

(** The context block: the kept chunks joined by a blank line. *)
Definition context_block (context_chunks : list (list ascii)) : list ascii :=
  join [ascii_of_N 10; ascii_of_N 10] (unique_context context_chunks).

(** One model call: the event is recorded and the call counted. *)
Definition generate_content (self : GeminiRAGService) (prompt : list ascii)
    (w : world) : result (list ascii) * world :=
  (model self (calls w) prompt,
   {| calls := S (calls w); trace := trace w ++ [LlmCall prompt] |}).

Definition sleep (seconds : Z) (w : world) : world :=
  {| calls := calls w; trace := trace w ++ [Sleep seconds] |}.

(** The message of the final failure. *)
Definition retry_failure (max_retries : Z) (e : exn) : exn :=
  RAGError (lit "Gemini API call failed after " ++ lit (pretty max_retries)
              ++ lit " attempts: " ++ exn_str e).

(** The loop [for attempt in range(max_retries)], with [remaining]
    iterations left.  When the range is exhausted the function falls off
    its end and returns [None]. *)
Fixpoint retry_loop (self : GeminiRAGService) (prompt : list ascii)
    (max_retries : Z) (remaining : nat) (attempt : Z) (w : world)
  : result (option (list ascii)) * world :=
  match remaining with
  | O => (Return None, w)
  | S remaining' =>
      match generate_content self prompt w with
      | (Return text, w1) => (Return (Some text), w1)
      | (Raise e, w1) =>
          if attempt =? max_retries - 1
          then (Raise (retry_failure max_retries e), w1)
          else retry_loop self prompt max_retries remaining' (attempt + 1)
                          (sleep (2 ^ attempt) w1)
      end
  end.

(** [_call_gemini_with_retry(prompt, max_retries)] *)
Definition _call_gemini_with_retry (self : GeminiRAGService)
    (prompt : list ascii) (max_retries : Z) (w : world)
  : result (option (list ascii)) * world :=
  retry_loop self prompt max_retries (Z.to_nat max_retries) 0 w.

Definition no_information : list ascii :=
  lit "I couldn't find relevant information in the Mathematics textbook to answer your question accurately. Please try rephrasing your question or ask about a different math topic.".

(** The handler of [generate_response]: the module's own exceptions pass,
    anything else is wrapped. *)
Definition reraise (e : exn) : exn :=
  if is_RAGError e then e
  else RAGError (lit "Unexpected error in RAG pipeline: " ++ exn_str e).

Section Prompt.

(** The fixed text of the f-string: before the context, between the context
    and the question, and after the question. *)
Variables prompt_head prompt_middle prompt_tail : list ascii.

(** [_construct_enhanced_prompt(query, context_chunks)] *)
Definition _construct_enhanced_prompt (query : list ascii)
    (context_chunks : list (list ascii)) : list ascii :=
  let context := context_block context_chunks in
  prompt_head ++ context ++ prompt_middle ++ query ++ prompt_tail.

(** [generate_response(query)].  A [None] from the retry loop would make
    [sanitize_response] raise a [TypeError], which the handler wraps. *)
Definition generate_response (st : Settings) (self : GeminiRAGService)
    (query : list ascii) (w : world) : result (list ascii) * world :=
  match validate_input query with
  | Raise e => (Raise (reraise e), w)
  | Return _ =>
      match _get_relevant_context st self query None with
      | Raise e => (Raise (reraise e), w)
      | Return (context_chunks, similarity_scores) =>
          match context_chunks with
          | [] => (Return no_information, w)
          | _ =>
              let prompt := _construct_enhanced_prompt query context_chunks in
              match _call_gemini_with_retry self prompt 3 w with
              | (Raise e, w') => (Raise (reraise e), w')
              | (Return None, w') =>
                  (Raise (reraise (OtherException
                            (lit "expected string or bytes-like object"))), w')
              | (Return (Some response), w') =>
                  (Return (sanitize_response response), w')
              end
          end
      end
  end.

End Prompt.

(** The model calls and the sleeps among the events. *)
Definition is_call (e : event) : bool :=
  match e with LlmCall _ => true | Sleep _ => false end.

Definition sleeps (t : list event) : list Z :=
  omap (fun e => match e with Sleep n => Some n | LlmCall _ => None end) t.

Definition attempts (t : list event) : nat :=
  length (filter (fun e => is_call e = true) t).

(** The events of [n] failed attempts numbered from [attempt] on, each
    followed by its back-off sleep. *)
Fixpoint failed_attempts (prompt : list ascii) (n : nat) (attempt : Z)
  : list event :=
  match n with
  | O => []
  | S n' =>
      LlmCall prompt :: Sleep (2 ^ attempt)
        :: failed_attempts prompt n' (attempt + 1)
  end.

Section Outcome.

Variables prompt_head prompt_middle prompt_tail : list ascii.

(** The four ways through [generate_response]: the query is rejected; the
    store fails; nothing relevant is found; or the model is called, failing
    [k] times before the call that settles the result. *)
Inductive outcome (st : Settings) (self : GeminiRAGService) (query : list ascii)
    (w : world) : Prop :=
| Rejected msg :
    validate_input query = Raise (ValidationError msg) ->
    generate_response prompt_head prompt_middle prompt_tail st self query w
    = (Raise (ValidationError msg), w) ->
    outcome st self query w
| StoreFailed msg :
    validate_input query = Return tt ->
    _get_relevant_context st self query None = Raise (VectorDBError msg) ->
    generate_response prompt_head prompt_middle prompt_tail st self query w
    = (Raise (VectorDBError msg), w) ->
    outcome st self query w
| NothingFound scores :
    validate_input query = Return tt ->
    _get_relevant_context st self query None = Return ([], scores) ->
    generate_response prompt_head prompt_middle prompt_tail st self query w
    = (Return no_information, w) ->
    outcome st self query w
| ModelCalled chunks scores (k : nat) :
    let prompt :=
      _construct_enhanced_prompt prompt_head prompt_middle prompt_tail query chunks in
    let r := generate_response prompt_head prompt_middle prompt_tail st self query w in
    validate_input query = Return tt ->
    _get_relevant_context st self query None = Return (chunks, scores) ->
    chunks <> [] ->
    (k <= 2)%nat ->
    snd r = {| calls := (calls w + S k)%nat;
               trace := trace w ++ failed_attempts prompt k 0 ++ [LlmCall prompt] |} ->
    (forall i, (i < k)%nat ->
       exists e, model self (calls w + i)%nat prompt = Raise e) ->
    ((exists text,
        model self (calls w + k)%nat prompt = Return text
        /\ fst r = Return (sanitize_response text))
     \/ (k = 2%nat
         /\ exists e,
              model self (calls w + k)%nat prompt = Raise e
              /\ fst r = Raise (retry_failure 3 e))) ->
    outcome st self query w.

End Outcome.

End RagService.

(** ** main.py *)

Module Main.
Import PyStr ErrorHandling Config RateLimiting RagService.

(** The readings of the clock during one request to [chat]: at entry, inside
    [is_allowed], the two readings of [get_rate_limit_info], the one
    subtracted in the 429 body, and the one that ends the processing time. *)
Record clock := mkClock {
  t_start : Q;
  t_allowed : Q;
  t_info : Q;
  t_reset : Q;
  t_retry : Q;
  t_done : Q
}.

(** What [chat] returns: a [ChatResponse], or an error [JSONResponse]. *)
Inductive response :=
| ChatResponse (answer : list ascii) (processing_time : Q) (info : rate_limit_info)
| ErrorResponse (r : JSONResponse).

(** [type(e).__name__] for the exception classes of [error_handling.py];
    [chat] reads it for the two classes its 503 clause catches. *)
Definition type_name (e : exn) : list ascii :=
  match e with
  | RAGError _ => lit "RAGError"
  | VectorDBError _ => lit "VectorDBError"
  | OpenAIError _ => lit "OpenAIError"
  | ValidationError _ => lit "ValidationError"
  | RateLimitError _ => lit "RateLimitError"
  | OtherException _ => lit "Exception"
  end.

(** The [except] clauses of [chat], in their order: [ValidationError];
    [(OpenAIError, VectorDBError)]; [RAGError], which also catches
    [RateLimitError]; [Exception]. *)
Definition chat_except (e : exn) : JSONResponse :=
  match e with
  | ValidationError _ =>
      mkJSONResponse 400 (lit "ValidationError") (exn_str e) None None
  | OpenAIError _ | VectorDBError _ =>
      mkJSONResponse 503 (type_name e)
        (lit "Service temporarily unavailable. Please try again later.") None None
  | RAGError _ | RateLimitError _ =>
      mkJSONResponse 500 (lit "RAGError")
        (lit "Unable to process your request. Please try again.") None None
  | OtherException _ =>
      mkJSONResponse 500 (lit "InternalServerError")
        (lit "An unexpected error occurred. Please try again later.") None None
  end.

(** The body sent when the limiter refuses the request. *)
Definition too_many_requests (retry_after : Q) : JSONResponse :=
  mkJSONResponse 429 (lit "RateLimitExceeded")
    (lit "Too many requests. Please slow down.") None (Some retry_after).

Section Chat.

Variables prompt_head prompt_middle prompt_tail : list ascii.

(** The body of [chat(request, chat_request)] for the client address
    [client] and the message [message]: the response, the limiter and the
    world afterwards.  The [slowapi] decorator and the field constraints of
    [ChatRequest] act before the body and are not part of it. *)
Definition chat (st : Settings) (rag_service : GeminiRAGService)
    (client : string) (message : list ascii) (ck : clock)
    (rate_limiter : AdvancedRateLimiter) (w : world)
  : response * AdvancedRateLimiter * world :=
  let '(allowed, rl1) :=
    check_rate_limit rate_limiter client (max_requests_per_minute st) (t_allowed ck) in
  if negb allowed then
    let '(info, rl2) := get_rate_limit_info rl1 client (t_info ck) (t_reset ck) in
    (ErrorResponse (too_many_requests (reset_time info - t_retry ck)%Q), rl2, w)
  else
    match generate_response prompt_head prompt_middle prompt_tail
            st rag_service message w with
    | (Return answer, w') =>
        let processing_time := (t_done ck - t_start ck)%Q in
        let '(info, rl2) := get_rate_limit_info rl1 client (t_info ck) (t_reset ck) in
        (ChatResponse answer processing_time info, rl2, w')
    | (Raise e, w') => (ErrorResponse (chat_except e), rl1, w')
    end.

(** A session: the requests served one after the other on the shared
    limiter and world; the responses, oldest first, and the final state. *)
Fixpoint serve (st : Settings) (rag_service : GeminiRAGService)
    (reqs : list (string * list ascii * clock))
    (rate_limiter : AdvancedRateLimiter) (w : world)
  : list response * AdvancedRateLimiter * world :=
  match reqs with
  | [] => ([], rate_limiter, w)
  | (client, message, ck) :: reqs' =>
      let '(r, rl', w') := chat st rag_service client message ck rate_limiter w in
      let '(rs, rl'', w'') := serve st rag_service reqs' rl' w' in
      (r :: rs, rl'', w'')
  end.

End Chat.

(** The [is_allowed] calls behind a session: one per request, on the
    address of the client, with the default window. *)
Definition calls_of (reqs : list (string * list ascii * clock)) : list call :=
  map (fun '(client, _, ck) => mkCall client 60 (t_allowed ck)) reqs.

Definition is_rate_limited (r : response) : bool :=
  match r with
  | ErrorResponse j => status_code j =? 429
  | ChatResponse _ _ _ => false
  end.

(** The clock readings of the requests of [client] that were answered with
    anything but a 429, oldest first. *)
Fixpoint served (client : string) (reqs : list (string * list ascii * clock))
    (rs : list response) : list Q :=
  match reqs, rs with
  | (c, _, ck) :: reqs', r :: rs' =>
      (if negb (is_rate_limited r) && bool_decide (c = client)
       then [t_allowed ck] else [])
      ++ served client reqs' rs'
  | _, _ => []
  end.

End Main.

(** ** Sample collaborators, for the worked examples *)

Module Samples.
Import PyStr ErrorHandling Config Hashlib RagService.

(** A store whose answer has three passages scored 0.9, 0.65 and 0.71, and
    one match without text. *)
Definition sample_index : Index := fun _ _ =>
  Return (DictResults
    [mkMatch (Some {[ "text"%string := lit "Pythagorean theorem" ]}) (Some (9 # 10));
     mkMatch None (Some (95 # 100));
     mkMatch (Some {[ "text"%string := lit "Area formulas" ]}) (Some (65 # 100));
     mkMatch (Some {[ "text"%string := lit "Right triangles" ]}) (Some (71 # 100))]).

(** A store whose passages all score below 0.7. *)
Definition weak_index : Index := fun _ _ =>
  Return (ObjectResults
    [mkMatch (Some {[ "text"%string := lit "Area formulas" ]}) (Some (65 # 100));
     mkMatch (Some {[ "text"%string := lit "Unit circle" ]}) None]).

(** A model that is down, one that answers at once, and one that answers at
    the third call of the process. *)
Definition failing_model : Model := fun n _ =>
  Raise (OtherException (lit "503 unavailable, call " ++ lit (pretty n))).

Definition working_model : Model := fun _ _ => Return (lit "  a^2 + b^2 = c^2  ").

Definition flaky_model : Model := fun n _ =>
  if (n <? 2)%nat then Raise (OtherException (lit "timeout"))
  else Return (lit "c = 5").

Definition world0 : world := {| calls := 0; trace := [] |}.

End Samples.

(** * Properties *)

Section RateLimitingFacts.

Import RateLimiting.

Lemma Qltb_lt x y : Qltb x y = true <-> (x < y)%Q.
Proof.
  unfold Qltb. rewrite negb_true_iff.
  destruct (Qle_bool y x) eqn:E.
  - apply Qle_bool_iff in E. split; [discriminate | intros H; lra].
  - split; [intros _ | reflexivity].
    apply Qnot_le_lt. intros H. apply Qle_bool_iff in H. congruence.
Qed.

Lemma Qltb_ge x y : Qltb x y = false <-> (y <= x)%Q.
Proof.
  destruct (Qltb x y) eqn:E.
  - apply Qltb_lt in E. split; [discriminate | intros H; lra].
  - split; [intros _ | reflexivity].
    apply Qnot_lt_le. intros H. apply Qltb_lt in H. congruence.
Qed.

Lemma window_set_window rl ip d : window (set_window rl ip d) ip = d.
Proof. unfold window, set_window; simpl. by rewrite lookup_insert_eq. Qed.

Lemma window_set_window_ne rl ip ip' d :
  ip <> ip' -> window (set_window rl ip d) ip' = window rl ip'.
Proof. intros H. unfold window, set_window; simpl. by rewrite lookup_insert_ne. Qed.

Lemma window_init ip : window init ip = [].
Proof. reflexivity. Qed.

(** What the eviction loop leaves: a suffix of the deque whose head, if any,
    has not aged out. *)
Lemma evict_suffix cutoff d : evict cutoff d `suffix_of` d.
Proof.
  induction d as [|t d IH]; simpl; [done|].
  destruct (Qltb t cutoff); [by apply suffix_cons_r | done].
Qed.

Lemma evict_head cutoff d t d' :
  evict cutoff d = t :: d' -> (cutoff <= t)%Q.
Proof.
  induction d as [|x d IH]; simpl; [discriminate|].
  destruct (Qltb x cutoff) eqn:E; [done|].
  intros [= -> _]. by apply Qltb_ge.
Qed.

Lemma evict_fresh cutoff d :
  Forall (fun t => (cutoff <= t)%Q) d -> evict cutoff d = d.
Proof.
  destruct 1 as [|t d Ht _]; simpl; [done|].
  apply Qltb_ge in Ht. by rewrite Ht.
Qed.

Lemma evict_stale cutoff d :
  Forall (fun t => (t < cutoff)%Q) d -> evict cutoff d = [].
Proof.
  induction 1 as [|t d Ht _ IH]; simpl; [done|].
  apply Qltb_lt in Ht. by rewrite Ht.
Qed.

Lemma Sorted_suffix (l1 l2 : list Q) :
  l1 `suffix_of` l2 -> Sorted Qle l2 -> Sorted Qle l1.
Proof.
  intros [k ->]. induction k as [|x k IH]; simpl; [done|].
  intros H. apply IH. by inversion H.
Qed.

Lemma Forall_suffix (P : Q -> Prop) (l1 l2 : list Q) :
  l1 `suffix_of` l2 -> Forall P l2 -> Forall P l1.
Proof. intros [k ->] H. by apply Forall_app in H as [_ H]. Qed.

Lemma Sorted_Qle_snoc (d : list Q) (now : Q) :
  Sorted Qle d -> Forall (fun t => (t <= now)%Q) d -> Sorted Qle (d ++ [now]).
Proof.
  intros Hs Hb. apply Sorted_snoc; [done|].
  destruct d as [|x d] using rev_ind; [constructor|].
  apply Forall_app in Hb as [_ Hb]. inversion Hb; subst.
  by constructor.
Qed.

(** The two outcomes of one admission check, read off the stored window. *)
Lemma is_allowed_rejected rl ip m w now :
  fst (is_allowed rl ip m w now) = false ->
  window (snd (is_allowed rl ip m w now)) ip
    = evict (now - inject_Z w) (window rl ip)
  /\ m <= Z.of_nat (length (evict (now - inject_Z w) (window rl ip))).
Proof.
  unfold is_allowed. simpl.
  destruct (Z.geb_spec (Z.of_nat (length (evict (now - inject_Z w) (window rl ip)))) m);
    simpl; [|discriminate].
  intros _. rewrite window_set_window. split; [done | lia].
Qed.

Lemma is_allowed_accepted rl ip m w now :
  fst (is_allowed rl ip m w now) = true ->
  window (snd (is_allowed rl ip m w now)) ip
    = evict (now - inject_Z w) (window rl ip) ++ [now]
  /\ Z.of_nat (length (evict (now - inject_Z w) (window rl ip))) < m.
Proof.
  unfold is_allowed. simpl.
  destruct (Z.geb_spec (Z.of_nat (length (evict (now - inject_Z w) (window rl ip)))) m);
    simpl; [discriminate|].
  intros _. rewrite window_set_window. split; [done | lia].
Qed.

Lemma is_allowed_under rl ip m w now d :
  evict (now - inject_Z w) (window rl ip) = d ->
  Z.of_nat (length d) < m ->
  is_allowed rl ip m w now = (true, set_window rl ip (d ++ [now])).
Proof.
  intros Hd Hlt. unfold is_allowed. cbv zeta. rewrite Hd.
  destruct (Z.geb_spec (Z.of_nat (length d)) m); [lia | done].
Qed.

Lemma is_allowed_full rl ip m w now d :
  evict (now - inject_Z w) (window rl ip) = d ->
  m <= Z.of_nat (length d) ->
  is_allowed rl ip m w now = (false, set_window rl ip d).
Proof.
  intros Hd Hle. unfold is_allowed. cbv zeta. rewrite Hd.
  destruct (Z.geb_spec (Z.of_nat (length d)) m); [done | lia].
Qed.

Lemma is_allowed_other rl ip ip' m w now :
  ip <> ip' -> window (snd (is_allowed rl ip m w now)) ip' = window rl ip'.
Proof.
  intros H. unfold is_allowed. simpl.
  destruct (_ >=? _); simpl; by rewrite window_set_window_ne.
Qed.

Lemma window_sorted_mono t0 t1 d :
  (t0 <= t1)%Q -> window_sorted t0 d -> window_sorted t1 d.
Proof.
  intros Ht (Hs & Hb). split; [done|].
  eapply Forall_impl; [exact Hb|]. simpl. intros x Hx. lra.
Qed.

Lemma is_allowed_window_sorted rl ip m w t0 now :
  (t0 <= now)%Q ->
  (forall k, window_sorted t0 (window rl k)) ->
  forall k, window_sorted now (window (snd (is_allowed rl ip m w now)) k).
Proof.
  intros Ht Hinv k. destruct (decide (ip = k)) as [<-|Hne].
  2:{ rewrite is_allowed_other by done. by apply (window_sorted_mono t0). }
  pose proof (window_sorted_mono t0 now _ Ht (Hinv ip)) as (Hs & Hb).
  pose proof (evict_suffix (now - inject_Z w) (window rl ip)) as Hsuf.
  pose proof (Sorted_suffix _ _ Hsuf Hs) as Hs'.
  pose proof (Forall_suffix _ _ _ Hsuf Hb) as Hb'.
  destruct (fst (is_allowed rl ip m w now)) eqn:E.
  - apply is_allowed_accepted in E as [-> Hlt]. split.
    + by apply Sorted_Qle_snoc.
    + apply Forall_app. split; [done|]. constructor; [lra | constructor].
  - apply is_allowed_rejected in E as [-> _]. by split.
Qed.

Lemma is_allowed_window_bounded rl ip m w now :
  (forall k, window_bounded m (window rl k)) ->
  forall k, window_bounded m (window (snd (is_allowed rl ip m w now)) k).
Proof.
  unfold window_bounded. intros Hinv k. destruct (decide (ip = k)) as [<-|Hne].
  2:{ by rewrite is_allowed_other. }
  pose proof (suffix_length _ _ (evict_suffix (now - inject_Z w) (window rl ip))).
  specialize (Hinv ip).
  destruct (fst (is_allowed rl ip m w now)) eqn:E.
  - apply is_allowed_accepted in E as [-> Hlt]. rewrite length_app. simpl. lia.
  - apply is_allowed_rejected in E as [-> _]. lia.
Qed.

Lemma run_window_sorted m cs : forall rl t0,
  clock_from t0 cs ->
  (forall k, window_sorted t0 (window rl k)) ->
  exists t1, forall k, window_sorted t1 (window (run m rl cs) k).
Proof.
  induction cs as [|c cs IH]; simpl; intros rl t0 Hc Hinv; [by exists t0|].
  destruct Hc as [Ht Hc].
  apply (IH _ (call_now c) Hc).
  by apply (is_allowed_window_sorted rl (call_ip c) m (call_window c) t0).
Qed.

Lemma run_window_bounded m cs : forall rl,
  (forall k, window_bounded m (window rl k)) ->
  forall k, window_bounded m (window (run m rl cs) k).
Proof.
  induction cs as [|c cs IH]; simpl; intros rl Hinv; [done|].
  apply IH. by apply is_allowed_window_bounded.
Qed.

Lemma run_init_sorted m cs ip :
  clock_nondecreasing cs -> Sorted Qle (window (run m init cs) ip).
Proof.
  intros Hc.
  assert (Hinit : forall t0 k, window_sorted t0 (window init k)).
  { intros t0 k. rewrite window_init. split; constructor. }
  destruct cs as [|c cs]; [constructor|].
  destruct (run_window_sorted m (c :: cs) init (call_now c)) as [t1 H].
  - simpl. split; [lra | exact Hc].
  - intros k. apply Hinit.
  - by destruct (H ip).
Qed.

Lemma run_init_bounded m cs ip :
  0 <= m -> Z.of_nat (length (window (run m init cs) ip)) <= m.
Proof.
  intros Hm. apply (run_window_bounded m cs init).
  intros k. unfold window_bounded. by rewrite window_init.
Qed.

(** The two read paths store back what they read: neither evicts. *)
Lemma get_reset_time_keeps rl ip w now :
  window (snd (get_reset_time rl ip w now)) ip = window rl ip.
Proof.
  unfold get_reset_time. destruct (window rl ip); simpl; by rewrite window_set_window.
Qed.

Lemma get_rate_limit_info_keeps rl key now1 now2 :
  window (snd (get_rate_limit_info rl key now1 now2)) key = window rl key.
Proof.
  unfold get_rate_limit_info. cbv zeta.
  destruct (get_reset_time (set_window rl key (window rl key)) key 60 now2)
    as [rt rl2] eqn:E.
  simpl. replace rl2 with (snd (get_reset_time (set_window rl key (window rl key))
                                  key 60 now2)) by (by rewrite E).
  by rewrite get_reset_time_keeps, window_set_window.
Qed.

Lemma evict_idem cutoff d : evict cutoff (evict cutoff d) = evict cutoff d.
Proof.
  destruct (evict cutoff d) as [|t d'] eqn:E; [done|].
  apply evict_head in E. simpl. apply Qltb_ge in E. by rewrite E.
Qed.

(** Read right after a check, at the same clock reading and with the same
    non-negative window, the stored head has not aged out: the value read
    is the one the eviction-first description gives. *)
Lemma get_reset_time_after_check rl ip m w now :
  0 <= w ->
  let rl' := snd (is_allowed rl ip m w now) in
  fst (get_reset_time rl' ip w now) = reset_time_spec rl' ip w now.
Proof.
  intros Hw rl'.
  assert (Hfresh : evict (now - inject_Z w) (window rl' ip) = window rl' ip).
  { unfold rl'. destruct (fst (is_allowed rl ip m w now)) eqn:E.
    - apply is_allowed_accepted in E as [-> _].
      destruct (evict (now - inject_Z w) (window rl ip)) as [|t d'] eqn:Ed; simpl.
      + assert (Qltb now (now - inject_Z w) = false) as ->; [|done].
        apply Qltb_ge. assert (0 <= inject_Z w)%Q; [|lra].
        change 0%Q with (inject_Z 0). by rewrite <- Zle_Qle.
      + apply evict_head in Ed. apply Qltb_ge in Ed. by rewrite Ed.
    - apply is_allowed_rejected in E as [-> _]. apply evict_idem. }
  unfold reset_time_spec, get_reset_time. rewrite Hfresh.
  by destruct (window rl' ip).
Qed.

(** A rejected check never appends: what is stored afterwards is what the
    eviction loop left, and when no more than [m] timestamps were stored
    nothing was evicted either. *)
Lemma is_allowed_rejected_keeps rl ip m w now :
  Z.of_nat (length (window rl ip)) <= m ->
  fst (is_allowed rl ip m w now) = false ->
  window (snd (is_allowed rl ip m w now)) ip = window rl ip.
Proof.
  intros Hle Hrej. apply is_allowed_rejected in Hrej as [-> Hfull].
  apply suffix_length_eq; [apply evict_suffix|].
  pose proof (suffix_length _ _ (evict_suffix (now - inject_Z w) (window rl ip))).
  lia.
Qed.

End RateLimitingFacts.

Section RateLimitingClaims.

Import RateLimiting.

(** C1: from an empty window, with [max_requests = 3] and
    [window_seconds = 60], three checks at clock time [t] are allowed and a
    fourth at [t] is rejected; the rejected check stores exactly what was
    stored before it (the three admitted timestamps, no fourth); a check
    at any [t'] later than [t + 60] is allowed again; and with these
    parameters any rejected check on a window of at most three timestamps
    leaves that window as it was. *)
Theorem is_allowed_three_then_rejected
    (rl : AdvancedRateLimiter) (ip : string) (t t' : Q) :
  window rl ip = [] ->
  (t + 60 < t')%Q ->
  let r1 := is_allowed rl ip 3 60 t in
  let r2 := is_allowed (snd r1) ip 3 60 t in
  let r3 := is_allowed (snd r2) ip 3 60 t in
  let r4 := is_allowed (snd r3) ip 3 60 t in
  let r5 := is_allowed (snd r4) ip 3 60 t' in
  fst r1 = true /\ fst r2 = true /\ fst r3 = true /\ fst r4 = false
  /\ window (snd r3) ip = [t; t; t]
  /\ window (snd r4) ip = window (snd r3) ip
  /\ fst r5 = true
  /\ window (snd r5) ip = [t']
  /\ (forall rl' now,
        Z.of_nat (length (window rl' ip)) <= 3 ->
        fst (is_allowed rl' ip 3 60 now) = false ->
        window (snd (is_allowed rl' ip 3 60 now)) ip = window rl' ip).
Proof.
  intros Hempty Hlate.
  assert (Hkeep : forall d, Forall (fun x => x = t) d ->
            evict (t - inject_Z 60) d = d).
  { intros d Hd. apply evict_fresh. eapply Forall_impl; [exact Hd|].
    simpl. intros x ->. change (inject_Z 60) with 60%Q. lra. }
  assert (Hdrop : evict (t' - inject_Z 60) [t; t; t] = []).
  { apply evict_stale. change (inject_Z 60) with 60%Q.
    repeat constructor; lra. }
  assert (E1 : is_allowed rl ip 3 60 t = (true, set_window rl ip [t])).
  { apply (is_allowed_under _ _ _ _ _ []); [by rewrite Hempty | done]. }
  set (rl1 := set_window rl ip [t]) in *.
  assert (E2 : is_allowed rl1 ip 3 60 t = (true, set_window rl1 ip [t; t])).
  { apply (is_allowed_under _ _ _ _ _ [t]); [|done].
    unfold rl1. rewrite window_set_window. apply Hkeep. by repeat constructor. }
  set (rl2 := set_window rl1 ip [t; t]) in *.
  assert (E3 : is_allowed rl2 ip 3 60 t = (true, set_window rl2 ip [t; t; t])).
  { apply (is_allowed_under _ _ _ _ _ [t; t]); [|done].
    unfold rl2. rewrite window_set_window. apply Hkeep. by repeat constructor. }
  set (rl3 := set_window rl2 ip [t; t; t]) in *.
  assert (E4 : is_allowed rl3 ip 3 60 t = (false, set_window rl3 ip [t; t; t])).
  { apply is_allowed_full; [|done].
    unfold rl3. rewrite window_set_window. apply Hkeep. by repeat constructor. }
  set (rl4 := set_window rl3 ip [t; t; t]) in *.
  assert (E5 : is_allowed rl4 ip 3 60 t' = (true, set_window rl4 ip [t'])).
  { apply (is_allowed_under _ _ _ _ _ []); [|done].
    unfold rl4. by rewrite window_set_window. }
  cbv zeta. rewrite E1; cbn [fst snd]. rewrite E2; cbn [fst snd].
  rewrite E3; cbn [fst snd]. rewrite E4; cbn [fst snd]. rewrite E5; cbn [fst snd].
  unfold rl4, rl3. rewrite !window_set_window.
  repeat split; try done. intros rl' now. apply is_allowed_rejected_keeps.
Qed.

Lemma is_allowed_three_then_rejected_witness :
  let ip := "10.0.0.1"%string in
  let r1 := is_allowed init ip 3 60 100 in
  let r2 := is_allowed (snd r1) ip 3 60 100 in
  let r3 := is_allowed (snd r2) ip 3 60 100 in
  let r4 := is_allowed (snd r3) ip 3 60 100 in
  window init ip = [] /\ (100 + 60 < 161)%Q
  /\ fst r4 = false
  /\ fst (is_allowed (snd r4) ip 3 60 161) = true.
Proof.
  cbv zeta. split; [reflexivity|]. split; [reflexivity|].
  pose proof (is_allowed_three_then_rejected init "10.0.0.1" 100 161
                eq_refl eq_refl) as H.
  cbv zeta in H. split; apply H.
Defined.

(** C10 (as amended): for a fixed non-negative [max_requests], after any
    sequence of [is_allowed] calls issued on a fresh limiter with
    non-decreasing clock readings, every key's stored window holds at most
    [max_requests] timestamps and they are in non-decreasing order. *)
Theorem run_window_bounded_sorted
    (max_requests : Z) (cs : list call) (ip : string) :
  0 <= max_requests ->
  clock_nondecreasing cs ->
  Z.of_nat (length (window (run max_requests init cs) ip)) <= max_requests
  /\ Sorted Qle (window (run max_requests init cs) ip).
Proof.
  intros Hm Hc. split; [by apply run_init_bounded | by apply run_init_sorted].
Qed.

Lemma run_window_bounded_sorted_witness :
  let cs := [mkCall "a" 60 0; mkCall "a" 60 1; mkCall "b" 60 1;
             mkCall "a" 60 2; mkCall "a" 60 70] in
  0 <= 2 /\ clock_nondecreasing cs
  /\ Z.of_nat (length (window (run 2 init cs) "a")) <= 2
  /\ Sorted Qle (window (run 2 init cs) "a").
Proof.
  cbv zeta.
  assert (H0 : 0 <= 2) by (by intros ?).
  assert (Hc : clock_nondecreasing
            [mkCall "a" 60 0; mkCall "a" 60 1; mkCall "b" 60 1;
             mkCall "a" 60 2; mkCall "a" 60 70]).
  { simpl. repeat split; by intros ?. }
  split; [exact H0|]. split; [exact Hc|].
  exact (run_window_bounded_sorted 2 _ "a" H0 Hc).
Defined.

(** C10 as stated, for every [max_requests]: with [max_requests = -1] the
    only call is rejected, the window holds zero timestamps, and zero is
    not at most [-1]. *)
Lemma run_window_negative_max_counterexample :
  let cs := [mkCall "a" 60 0] in
  clock_nondecreasing cs
  /\ fst (is_allowed init "a" (-1) 60 0) = false
  /\ window (run (-1) init cs) "a" = []
  /\ ~ (Z.of_nat (length (window (run (-1) init cs) "a")) <= -1).
Proof.
  cbv zeta. split; [exact I|]. split; [reflexivity|]. split; [reflexivity|].
  vm_compute. intros H. by apply H.
Qed.

(** C8 (as amended): [get_reset_time] evicts nothing and reads the head of
    what is stored.  On a limiter reached by [is_allowed] calls with
    non-decreasing clock readings, it returns the current time when nothing
    is stored for the key, and otherwise the oldest stored timestamp plus
    [window_seconds], whether or not that timestamp has aged out. *)
Theorem get_reset_time_oldest_stored
    (max_requests : Z) (cs : list call) (ip : string)
    (window_seconds : Z) (now : Q) :
  clock_nondecreasing cs ->
  let rl := run max_requests init cs in
  window (snd (get_reset_time rl ip window_seconds now)) ip = window rl ip
  /\ match window rl ip with
     | [] => fst (get_reset_time rl ip window_seconds now) = now
     | oldest :: d =>
         fst (get_reset_time rl ip window_seconds now)
           = (oldest + inject_Z window_seconds)%Q
         /\ Forall (fun x => (oldest <= x)%Q) d
     end.
Proof.
  intros Hc rl. split.
  { unfold get_reset_time. destruct (window rl ip) eqn:E; simpl;
      by rewrite window_set_window. }
  unfold get_reset_time. destruct (window rl ip) as [|oldest d] eqn:E; simpl; [done|].
  split; [done|].
  assert (Hs : Sorted Qle (window rl ip)) by (by apply run_init_sorted).
  rewrite E in Hs. apply Sorted_StronglySorted in Hs; [|intros x y z; apply Qle_trans].
  by inversion Hs.
Qed.

Lemma get_reset_time_oldest_stored_witness :
  let cs := [mkCall "a" 60 5; mkCall "a" 60 7] in
  clock_nondecreasing cs
  /\ fst (get_reset_time (run 3 init cs) "a" 60 1000) = (5 + inject_Z 60)%Q.
Proof.
  cbv zeta.
  assert (Hc : clock_nondecreasing [mkCall "a" 60 5; mkCall "a" 60 7]).
  { simpl. split; [by intros ?| exact I]. }
  split; [exact Hc|].
  exact (proj1 (proj2 (get_reset_time_oldest_stored 3 _ "a" 60 1000 Hc))).
Defined.

(** C8 as stated: one request admitted at time 0, read at time 1000 with a
    60-second window.  Nothing is retained inside the trailing window, so
    the value the spec describes is the current time 1000; the code returns
    0 + 60. *)
Lemma get_reset_time_stale_counterexample :
  let rl := snd (is_allowed init "a" 3 60 0) in
  window rl "a" = [0%Q]
  /\ evict (1000 - inject_Z 60) (window rl "a") = []
  /\ reset_time_spec rl "a" 60 1000 = 1000%Q
  /\ (fst (get_reset_time rl "a" 60 1000) == 60)%Q
  /\ ~ (fst (get_reset_time rl "a" 60 1000) == reset_time_spec rl "a" 60 1000)%Q.
Proof.
  cbv zeta. split; [reflexivity|]. split; [reflexivity|]. split; [reflexivity|].
  split; [reflexivity|]. vm_compute. discriminate.
Qed.

End RateLimitingClaims.

Section PyStrFacts.

Import PyStr.

Lemma re_sub_nil m : re_sub m [] = [].
Proof. by simp re_sub. Qed.

Lemma re_sub_keep m c s :
  m (c :: s) = None \/ m (c :: s) = Some 0%nat ->
  re_sub m (c :: s) = c :: re_sub m s.
Proof. intros [H|H]; simp re_sub; rewrite H; by simp re_sub. Qed.

Lemma re_sub_skip m c s n :
  m (c :: s) = Some (S n) -> re_sub m (c :: s) = re_sub m (drop n s).
Proof. intros H. simp re_sub. rewrite H. by simp re_sub. Qed.

(** *** Stripping *)

Lemma lstrip_suffix s : lstrip s `suffix_of` s.
Proof.
  induction s as [|c s IH]; simpl; [done|].
  destruct (is_space c); [by apply suffix_cons_r | done].
Qed.

Lemma lstrip_head s c t : lstrip s = c :: t -> is_space c = false.
Proof.
  induction s as [|x s IH]; simpl; [done|].
  destruct (is_space x) eqn:E; [done|]. by intros [= -> _].
Qed.

Lemma lstrip_nil s : lstrip s = [] <-> whitespace_only s.
Proof.
  unfold whitespace_only. induction s as [|x s IH]; simpl.
  - split; [constructor | done].
  - destruct (is_space x) eqn:E.
    + rewrite IH. split; [by constructor | by inversion 1].
    + split; [done|]. inversion 1; congruence.
Qed.


Lemma lstrip_snoc_keep s c :
  is_space c = false -> exists k, lstrip (s ++ [c]) = k ++ [c].
Proof.
  intros Hc. induction s as [|x s IH]; simpl.
  - rewrite Hc. by exists [].
  - destruct (is_space x); [done|]. by exists (x :: s).
Qed.

Lemma rstrip_prefix s : rstrip s `prefix_of` s.
Proof.
  unfold rstrip. destruct (lstrip_suffix (reverse s)) as [k Hk].
  exists (reverse k). apply (inj reverse).
  by rewrite reverse_app, !reverse_involutive.
Qed.

Lemma rstrip_cons_keep c s :
  is_space c = false -> exists k, rstrip (c :: s) = c :: k.
Proof.
  intros Hc. unfold rstrip. rewrite reverse_cons.
  destruct (lstrip_snoc_keep (reverse s) c Hc) as [k ->].
  exists (reverse k). by rewrite reverse_app.
Qed.


Lemma strip_length s : (length (strip s) <= length s)%nat.
Proof.
  unfold strip.
  pose proof (prefix_length _ _ (rstrip_prefix (lstrip s))).
  pose proof (suffix_length _ _ (lstrip_suffix s)). lia.
Qed.

(** [strip s] is empty exactly when [s] holds nothing but whitespace. *)
Lemma strip_nil s : strip s = [] <-> whitespace_only s.
Proof.
  rewrite <- lstrip_nil. unfold strip. split.
  - intros H. destruct (lstrip s) as [|c t] eqn:E; [done|].
    apply lstrip_head in E. destruct (rstrip_cons_keep c t E) as [k Hk]. congruence.
  - by intros ->.
Qed.

(** The stripped text neither starts nor ends with whitespace. *)
Lemma strip_head s c t : strip s = c :: t -> is_space c = false.
Proof.
  unfold strip. destruct (lstrip s) as [|x u] eqn:E; [done|].
  pose proof (lstrip_head _ _ _ E) as Hx.
  destruct (rstrip_cons_keep x u Hx) as [k ->]. by intros [= <- _].
Qed.

Lemma strip_last s t c : strip s = t ++ [c] -> is_space c = false.
Proof.
  unfold strip, rstrip. intros H. apply (f_equal reverse) in H.
  rewrite reverse_involutive, reverse_app in H. simpl in H.
  by apply lstrip_head in H.
Qed.


(** *** Occurrences *)

Lemma startswith_prefix p s : startswith p s = true <-> p `prefix_of` s.
Proof.
  revert s. induction p as [|a p IH]; intros [|b s]; simpl.
  - split; [intros _; apply prefix_nil | done].
  - split; [intros _; apply prefix_nil | done].
  - split; [done | intros H; by apply prefix_nil_inv in H].
  - rewrite andb_true_iff, IH. split.
    + intros [Hab Hp]. apply Ascii.eqb_eq in Hab as ->. by apply prefix_cons.
    + intros H. apply prefix_cons_inv_1 in H as Hab. apply prefix_cons_inv_2 in H.
      split; [by apply Ascii.eqb_eq | done].
Qed.

Lemma contains_infix p s :
  contains p s = true <-> exists u v, s = u ++ p ++ v.
Proof.
  induction s as [|c s IH]; simpl.
  - rewrite orb_false_r, startswith_prefix. split.
    + intros [v Hv]. by exists [], v.
    + intros (u & v & H). symmetry in H.
      apply app_eq_nil in H as [-> H]. apply app_eq_nil in H as [-> ->]. done.
  - rewrite orb_true_iff, startswith_prefix, IH. split.
    + intros [[v Hv]|(u & v & ->)]; [by exists [], v | by exists (c :: u), v].
    + intros (u & v & H). destruct u as [|x u]; simpl in H.
      * left. by exists v.
      * right. injection H as -> ->. by exists u, v.
Qed.

Lemma lower_app s t : lower (s ++ t) = lower s ++ lower t.
Proof. apply map_app. Qed.


Lemma lower_char_idemp c : lower_char (lower_char c) = lower_char c.
Proof. destruct c as [[] [] [] [] [] [] [] []]; reflexivity. Qed.

Lemma lower_idemp s : lower (lower s) = lower s.
Proof.
  unfold lower. rewrite map_map. apply map_ext. apply lower_char_idemp.
Qed.

(** [p in s.lower()]: some stretch of [s] reads [p] once lowered. *)
Lemma contains_lower p s :
  contains p (lower s) = true <-> exists u m v, s = u ++ m ++ v /\ lower m = p.
Proof.
  rewrite contains_infix. split.
  - intros (u & v & H). unfold lower in H.
    apply map_eq_app in H as (u' & r & -> & Hu & H).
    apply map_eq_app in H as (m & v' & -> & Hm & Hv).
    by exists u', m, v'.
  - intros (u & m & v & -> & <-). exists (lower u), (lower v).
    by rewrite !lower_app.
Qed.

Lemma contains_lower_occurs p s :
  contains (lower p) (lower s) = true <-> occurs_ci p s.
Proof. apply contains_lower. Qed.

Lemma startswith_ci_spec p s :
  startswith_ci p s = true <-> exists m v, s = m ++ v /\ lower m = lower p.
Proof.
  revert s. induction p as [|a p IH]; intros [|b s]; simpl.
  - split; [intros _; by exists [], [] | done].
  - split; [intros _; by exists [], (b :: s) | done].
  - split; [done|]. intros (m & v & H & Hm). symmetry in H.
    apply app_eq_nil in H as [-> _]. done.
  - rewrite andb_true_iff, IH. unfold char_ci. split.
    + intros [Hab (m & v & -> & Hm)]. apply Ascii.eqb_eq in Hab.
      exists (b :: m), v. simpl. by rewrite Hm, Hab.
    + intros (m & v & H & Hm). destruct m as [|x m]; [done|].
      simpl in H, Hm. injection H as -> ->. injection Hm as Hx Hm.
      split; [by apply Ascii.eqb_eq | by exists m, v].
Qed.


Lemma occurs_ci_drop p s :
  occurs_ci p s <-> exists k, startswith_ci p (drop k s) = true.
Proof.
  split.
  - intros (u & m & v & -> & Hm). exists (length u).
    rewrite drop_app_length. apply startswith_ci_spec. by exists m, v.
  - intros (k & (m & v & H & Hm)%startswith_ci_spec).
    exists (take k s), m, v. by rewrite <- H, take_drop.
Qed.


Lemma occurs_ci_app_r p u s : occurs_ci p s -> occurs_ci p (u ++ s).
Proof.
  intros (u' & m & v & -> & Hm). exists (u ++ u'), m, v. by rewrite <- app_assoc.
Qed.

Lemma occurs_ci_app_l p s v : occurs_ci p s -> occurs_ci p (s ++ v).
Proof.
  intros (u & m & v' & -> & Hm). exists u, m, (v' ++ v). by rewrite <- !app_assoc.
Qed.

Lemma not_occurs_startswith p s :
  ~ occurs_ci p s -> startswith_ci p s = false.
Proof.
  intros H. destruct (startswith_ci p s) eqn:E; [|done].
  exfalso. apply H. apply occurs_ci_drop. by exists 0%nat.
Qed.



(** *** Words *)

Lemma split_from_words cur s w :
  Forall (fun c => is_space c = false) cur ->
  w ∈ split_from cur s ->
  w <> [] /\ Forall (fun c => is_space c = false) w.
Proof.
  revert cur. induction s as [|c s IH]; intros cur Hcur; simpl.
  - destruct cur as [|x cur]; [by intros ?%elem_of_nil|].
    intros ->%list_elem_of_singleton. split.
    + intros H. apply (f_equal length) in H. by rewrite length_reverse in H.
    + by apply Forall_reverse.
  - destruct (is_space c) eqn:E.
    + destruct cur as [|x cur]; [by apply IH|].
      intros [->|Hw]%elem_of_cons; [|by apply (IH [])]. split.
      * intros H. apply (f_equal length) in H. by rewrite length_reverse in H.
      * by apply Forall_reverse.
    + apply IH. by constructor.
Qed.

(** A word of [s.split()] is not empty and holds no whitespace. *)
Lemma split_words s w :
  w ∈ split s -> w <> [] /\ Forall (fun c => is_space c = false) w.
Proof. by apply split_from_words. Qed.

Lemma split_from_concat cur s :
  concat (split_from cur s)
  = reverse cur ++ filter (fun c => is_space c = false) s.
Proof.
  revert cur. induction s as [|c s IH]; intros cur; simpl.
  - destruct cur; simpl; by rewrite ?app_nil_r.
  - rewrite filter_cons. destruct (is_space c) eqn:E; simpl.
    + destruct cur as [|x cur]; simpl; by rewrite IH.
    + rewrite IH, reverse_cons, <- app_assoc. done.
Qed.

(** The words, put end to end, are the text without its whitespace. *)
Lemma split_concat s :
  concat (split s) = filter (fun c => is_space c = false) s.
Proof. apply split_from_concat. Qed.

(** *** [split] against the words of the text *)

Lemma words_of_space c s ws :
  is_space c = true -> words_of s ws -> words_of (c :: s) ws.
Proof.
  intros Hc [s' Hs|u w rest ws' Hu Hne Hw Hrest Hws].
  - apply words_none. by constructor.
  - change (c :: u ++ w ++ rest) with ((c :: u) ++ w ++ rest).
    apply words_next; [by constructor | done..].
Qed.

Lemma split_from_words_of s : forall cur,
  Forall (fun c => is_space c = false) cur ->
  words_of (reverse cur ++ s) (split_from cur s).
Proof.
  induction s as [|c s IH]; intros cur Hcur.
  - simpl. destruct cur as [|x cur].
    + apply words_none. constructor.
    + apply (words_next [] (reverse (x :: cur)) [] []);
        [constructor| |by apply Forall_reverse|by left|].
      * intros H. apply (f_equal length) in H. by rewrite length_reverse in H.
      * apply words_none. constructor.
  - simpl. destruct (is_space c) eqn:E.
    + pose proof (words_of_space c s _ E (IH [] ltac:(constructor))) as Hrest.
      destruct cur as [|x cur]; [exact Hrest|].
      apply (words_next [] (reverse (x :: cur)) (c :: s));
        [constructor| |by apply Forall_reverse| |exact Hrest].
      * intros H. apply (f_equal length) in H. by rewrite length_reverse in H.
      * right. by exists c, s.
    + specialize (IH (c :: cur) ltac:(by constructor)).
      by rewrite reverse_cons, <- app_assoc in IH.
Qed.

(** [s.split()] gives the words of [s]. *)
Lemma split_words_of s : words_of s (split s).
Proof. apply (split_from_words_of s []). constructor. Qed.

Lemma split_from_space u s :
  whitespace_only u -> split_from [] (u ++ s) = split_from [] s.
Proof. induction 1 as [|c u Hc _ IH]; simpl; [done|]. by rewrite Hc. Qed.

Lemma split_from_word w : forall cur s,
  Forall (fun c => is_space c = false) w ->
  split_from cur (w ++ s) = split_from (reverse w ++ cur) s.
Proof.
  induction w as [|c w IH]; intros cur s Hw; [done|].
  inversion Hw as [|? ? Hc Hw']; subst. simpl. rewrite Hc, IH by done.
  by rewrite reverse_cons, <- app_assoc.
Qed.

Lemma split_from_end cur rest :
  cur <> [] ->
  (rest = [] \/ exists c rest', rest = c :: rest' /\ is_space c = true) ->
  split_from cur rest = reverse cur :: split_from [] rest.
Proof.
  intros Hne [->|(c & rest' & -> & Hc)]; simpl.
  - by destruct cur.
  - rewrite Hc. by destruct cur.
Qed.

(** and nothing else does: the words of a text are determined. *)
Lemma words_of_split s ws : words_of s ws -> ws = split s.
Proof.
  induction 1 as [s Hs|u w rest ws Hu Hne Hw Hrest _ IH].
  - unfold split. rewrite <- (app_nil_r s). by rewrite split_from_space.
  - unfold split. rewrite split_from_space, split_from_word, app_nil_r by done.
    rewrite split_from_end; [|by destruct w using rev_ind; [|rewrite reverse_app]|done].
    rewrite reverse_involutive. by rewrite IH.
Qed.

End PyStrFacts.

Section ValidateFacts.

Import PyStr ErrorHandling.

Lemma occurrences_cons w x words :
  occurrences w (x :: words)
  = if decide (x = w) then S (occurrences w words) else occurrences w words.
Proof. unfold occurrences. rewrite filter_cons. by destruct (decide (x = w)). Qed.

(** The counting loop started on [m0]: each word's entry grows by the
    number of times it is read. *)
Lemma count_words_from words : forall (m0 : gmap (list ascii) Z) w,
  foldl (fun word_counts word =>
           <[word := default 0 (word_counts !! word) + 1]> word_counts) m0 words !! w
  = match m0 !! w, occurrences w words with
    | None, O => None
    | o, n => Some (default 0 o + Z.of_nat n)
    end.
Proof.
  induction words as [|x words IH]; intros m0 w; simpl.
  - change (occurrences w []) with 0%nat.
    destruct (m0 !! w); simpl; [f_equal; lia | done].
  - rewrite IH, occurrences_cons. destruct (decide (x = w)) as [->|Hne].
    + rewrite lookup_insert_eq. simpl.
      destruct (m0 !! w) as [v|]; simpl; destruct (occurrences w words);
        f_equal; lia.
    + by rewrite lookup_insert_ne.
Qed.

Lemma count_words_lookup words w :
  count_words words !! w
  = match occurrences w words with
    | O => None
    | n => Some (Z.of_nat n)
    end.
Proof.
  unfold count_words. rewrite count_words_from, lookup_empty.
  by destruct (occurrences w words).
Qed.

Lemma foldr_max_ge (l : list Z) x : x ∈ l -> x <= foldr Z.max 0 l.
Proof.
  induction 1 as [x l|x y l _ IH]; simpl; lia.
Qed.

Lemma foldr_max_in (l : list Z) : foldr Z.max 0 l = 0 \/ foldr Z.max 0 l ∈ l.
Proof.
  induction l as [|x l IH]; simpl; [by left|].
  destruct (Z.max_spec x (foldr Z.max 0 l)) as [[_ ->]|[_ ->]].
  - destruct IH as [IH|IH]; [by left | right; by constructor].
  - right. constructor.
Qed.

Lemma max_values_ge (m : gmap (list ascii) Z) w v :
  m !! w = Some v -> v <= max_values m.
Proof.
  intros H. apply foldr_max_ge. apply list_elem_of_fmap.
  exists (w, v). split; [done|]. by apply elem_of_map_to_list.
Qed.

Lemma max_values_in (m : gmap (list ascii) Z) :
  max_values m = 0 \/ exists w, m !! w = Some (max_values m).
Proof.
  destruct (foldr_max_in (snd <$> map_to_list m)) as [H|H]; [by left|].
  right. apply list_elem_of_fmap in H as ([w v] & Hv & Hin).
  exists w. apply elem_of_map_to_list in Hin. unfold max_values. by rewrite Hv.
Qed.

(** The repetition test of the source, read on the list of words. *)
Lemma max_repetition_spec words :
  Z.of_nat (length words) < 2 * max_values (count_words words)
  <-> exists w, (length words < 2 * occurrences w words)%nat.
Proof.
  split.
  - intros H. destruct (max_values_in (count_words words)) as [E|[w E]]; [lia|].
    exists w. rewrite count_words_lookup in E.
    destruct (occurrences w words) as [|n]; [done|]. injection E as E. lia.
  - intros [w Hw].
    pose proof (count_words_lookup words w) as E.
    destruct (occurrences w words) as [|n] eqn:Hn; [lia|].
    apply max_values_ge in E. lia.
Qed.

Lemma dangerous_patterns_lower :
  Forall (fun p => lower p = p) dangerous_patterns.
Proof. repeat constructor. Qed.

Lemma has_unsafe_pattern_spec message :
  existsb (fun pattern => contains pattern (lower message)) dangerous_patterns = true
  <-> has_unsafe_pattern message.
Proof.
  rewrite existsb_exists. unfold has_unsafe_pattern.
  pose proof dangerous_patterns_lower as Hl. rewrite Forall_forall in Hl.
  split; intros (p & Hin & Hp); exists p.
  - apply list_elem_of_In in Hin. split; [done|].
    apply contains_lower_occurs. by rewrite (Hl p Hin).
  - split; [by apply list_elem_of_In|].
    apply contains_lower_occurs in Hp. by rewrite (Hl p Hin) in Hp.
Qed.

(** The unsafe patterns of the source, one by one. *)
Lemma has_unsafe_pattern_literals message :
  has_unsafe_pattern message
  <-> occurs_ci (lit "<script") message
      \/ occurs_ci (lit "javascript:") message
      \/ occurs_ci (lit "data:") message
      \/ occurs_ci (lit "vbscript:") message
      \/ occurs_ci (lit "onload=") message
      \/ occurs_ci (lit "onerror=") message
      \/ occurs_ci (lit "onclick=") message.
Proof.
  unfold has_unsafe_pattern, dangerous_patterns. split.
  - intros (p & Hp & H). repeat (apply elem_of_cons in Hp as [->|Hp]; [tauto|]).
    by apply elem_of_nil in Hp.
  - intros H. repeat (destruct H as [H|H]; [eexists; split; [|exact H]; set_solver|]).
    eexists; split; [|exact H]; set_solver.
Qed.

(** The repetition test, told on the words of the message. *)
Lemma repeats_excessively_words message :
  repeats_excessively message
  <-> exists words w,
        words_of message words
        /\ (10 < length words)%nat
        /\ (length words < 2 * occurrences w words)%nat.
Proof.
  unfold repeats_excessively. cbv zeta. split.
  - intros (Hlen & w & Hw). exists (split message), w.
    split; [apply split_words_of | done].
  - intros (words & w & ->%words_of_split & Hlen & Hw). split; [done|]. by exists w.
Qed.

End ValidateFacts.

Section ValidateClaims.

Import PyStr ErrorHandling.

(** C5: [validate_input] either succeeds or raises [ValidationError].  It
    raises exactly when the message is empty or whitespace-only, or longer
    than 2000 characters, or contains, whatever the case of its letters,
    one of [<script], [javascript:], [data:], [vbscript:], [onload=],
    [onerror=], [onclick=], or has more than 10 words with one word making
    up over half of them; the words being the maximal runs of characters
    that are not whitespace, and whitespace the characters 9 to 13, 28 to
    32, 133 and 160.  Every other message, which then has between 1 and
    2000 characters, is accepted. *)
Theorem validate_input_raises_iff (message : list ascii) :
  let raises := exists msg, validate_input message = Raise (ValidationError msg) in
  let unsafe :=
    occurs_ci (lit "<script") message
    \/ occurs_ci (lit "javascript:") message
    \/ occurs_ci (lit "data:") message
    \/ occurs_ci (lit "vbscript:") message
    \/ occurs_ci (lit "onload=") message
    \/ occurs_ci (lit "onerror=") message
    \/ occurs_ci (lit "onclick=") message in
  let repeated :=
    exists words w,
      words_of message words
      /\ (10 < length words)%nat
      /\ (length words < 2 * occurrences w words)%nat in
  (validate_input message = Return tt \/ raises)
  /\ (raises
      <-> whitespace_only message
          \/ (2000 < length message)%nat
          \/ unsafe
          \/ repeated)
  /\ (validate_input message = Return tt
      <-> ~ whitespace_only message
          /\ (1 <= length message <= 2000)%nat
          /\ ~ unsafe
          /\ ~ repeated)
  /\ (occurs_ci (lit "<script") message -> raises)
  /\ (occurs_ci (lit "javascript:") message -> raises)
  /\ (forall c,
        is_space c = true
        <-> N_of_ascii c ∈ [9; 10; 11; 12; 13; 28; 29; 30; 31; 32; 133; 160]%N).
Proof.
  cbv zeta.
  assert (Hspace : forall c,
            is_space c = true
            <-> N_of_ascii c ∈ [9; 10; 11; 12; 13; 28; 29; 30; 31; 32; 133; 160]%N).
  { intros c. unfold is_space. cbv zeta.
    rewrite !orb_true_iff, !andb_true_iff, !N.leb_le, !N.eqb_eq.
    rewrite !elem_of_cons, elem_of_nil. lia. }
  assert (Hempty : bool_decide (message = []) || bool_decide (strip message = [])
                   = true <-> whitespace_only message).
  { rewrite orb_true_iff, !bool_decide_eq_true, strip_nil. split; [|by right].
    intros [->|H]; [constructor | done]. }
  assert (Hlen : whitespace_only message \/ (1 <= length message)%nat).
  { destruct message; [left; constructor | right; simpl; lia]. }
  pose proof (has_unsafe_pattern_spec message) as Hpat.
  rewrite has_unsafe_pattern_literals in Hpat.
  pose proof (max_repetition_spec (split message)) as Hrep.
  pose proof (repeats_excessively_words message) as Hwords.
  unfold repeats_excessively in Hwords. cbv zeta in Hwords.
  set (unsafe := occurs_ci (lit "<script") message \/ _) in *.
  set (repeated := exists words w, _) in *.
  assert (Hmain :
    (validate_input message = Return tt
     \/ exists msg, validate_input message = Raise (ValidationError msg))
    /\ ((exists msg, validate_input message = Raise (ValidationError msg))
        <-> whitespace_only message \/ (2000 < length message)%nat
            \/ unsafe \/ repeated)
    /\ (validate_input message = Return tt
        <-> ~ whitespace_only message /\ (1 <= length message <= 2000)%nat
            /\ ~ unsafe /\ ~ repeated)).
  { unfold validate_input. cbv zeta.
    destruct (bool_decide (message = []) || bool_decide (strip message = [])).
    { assert (E1 : whitespace_only message) by (by apply Hempty).
      split; [right; eauto|]. split; [split; eauto|]. split; [done | tauto]. }
    assert (Hne : ~ whitespace_only message) by (by rewrite <- Hempty).
    assert (H1 : (1 <= length message)%nat) by (by destruct Hlen).
    destruct (Nat.ltb_spec 2000 (length message)) as [E2|E2].
    { split; [right; eauto|]. split; [split; eauto|]. split; [done | lia]. }
    destruct (existsb _ dangerous_patterns).
    { assert (E3 : unsafe) by (by apply Hpat).
      split; [right; eauto|]. split; [split; eauto|]. split; [done | tauto]. }
    assert (Hnp : ~ unsafe) by (by rewrite <- Hpat).
    destruct (Nat.ltb_spec 10 (length (split message))) as [E4|E4].
    - destruct (Z.ltb_spec (Z.of_nat (length (split message)))
                  (2 * max_values (count_words (split message)))) as [E5|E5].
      + apply Hrep in E5. assert (E6 : repeated) by (by apply Hwords).
        split; [right; eauto|]. split; [split; eauto 10|]. split; [done | tauto].
      + assert (Hnr : ~ repeated).
        { rewrite <- Hwords, <- Hrep. lia. }
        split; [by left|]. split.
        * split; [intros [? ?]; done|]. intros [?|[?|[?|?]]]; [done | lia | done..].
        * split; [|done]. intros _. split; [done|]. split; [lia | done].
    - assert (Hnr : ~ repeated).
      { rewrite <- Hwords. lia. }
      split; [by left|]. split.
      + split; [intros [? ?]; done|]. intros [?|[?|[?|?]]]; [done | lia | done..].
      + split; [|done]. intros _. split; [done|]. split; [lia | done]. }
  destruct Hmain as (H1 & H2 & H3).
  split; [exact H1|]. split; [exact H2|]. split; [exact H3|].
  split; [intros H; apply H2; right; right; left; unfold unsafe; tauto|].
  split; [intros H; apply H2; right; right; left; unfold unsafe; tauto|].
  exact Hspace.
Qed.

Lemma validate_input_raises_iff_witness :
  let repeating :=
    lit "go go go" ++ ["009"%char] ++ lit "go go" ++ ["010"%char]
      ++ lit "go go to the shop now ok" in
  (exists msg,
     validate_input (lit "<SCRIPT>alert(1)</script>") = Raise (ValidationError msg))
  /\ (exists msg,
        validate_input (lit "see JavaScript:void(0)") = Raise (ValidationError msg))
  /\ (exists msg, validate_input repeating = Raise (ValidationError msg))
  /\ validate_input (lit "What is 2 + 2?") = Return tt.
Proof.
  cbv zeta. split; [|split; [|split]].
  - pose proof (validate_input_raises_iff (lit "<SCRIPT>alert(1)</script>")) as H.
    cbv zeta in H. destruct H as (_ & _ & _ & H & _). apply H.
    by exists [], (lit "<SCRIPT"), (lit ">alert(1)</script>").
  - pose proof (validate_input_raises_iff (lit "see JavaScript:void(0)")) as H.
    cbv zeta in H. destruct H as (_ & _ & _ & _ & H & _). apply H.
    by exists (lit "see "), (lit "JavaScript:"), (lit "void(0)").
  - pose proof (validate_input_raises_iff
                  (lit "go go go" ++ ["009"%char] ++ lit "go go" ++ ["010"%char]
                     ++ lit "go go to the shop now ok")) as H.
    cbv zeta in H. destruct H as (_ & H & _). apply H.
    right. right. right.
    exists (split (lit "go go go" ++ ["009"%char] ++ lit "go go" ++ ["010"%char]
                     ++ lit "go go to the shop now ok")), (lit "go").
    split; [apply split_words_of|]. split; vm_compute; lia.
  - pose proof (validate_input_raises_iff (lit "What is 2 + 2?")) as H.
    cbv zeta in H. destruct H as (_ & _ & H & _). apply H.
    split; [by inversion 1|]. split; [simpl; lia|]. split.
    + rewrite <- has_unsafe_pattern_literals, <- has_unsafe_pattern_spec.
      by vm_compute.
    + intros (words & w & ->%words_of_split & Hlen & _). vm_compute in Hlen. lia.
Defined.

End ValidateClaims.

Section SanitizeFacts.

Import PyStr ErrorHandling.

Lemma re_sub_length m s : (length (re_sub m s) <= length s)%nat.
Proof.
  remember (length s) as n eqn:Hn. revert s Hn.
  induction n as [n IH] using lt_wf_ind. intros [|c s] ->.
  - by rewrite re_sub_nil.
  - destruct (m (c :: s)) as [[|k]|] eqn:E.
    + rewrite re_sub_keep by auto. simpl.
      specialize (IH (length s) ltac:(simpl; lia) s eq_refl). lia.
    + rewrite (re_sub_skip _ _ _ _ E).
      specialize (IH (length (drop k s)) ltac:(rewrite length_drop; simpl; lia)
                     (drop k s) eq_refl).
      rewrite length_drop in IH. simpl. lia.
    + rewrite re_sub_keep by auto. simpl.
      specialize (IH (length s) ltac:(simpl; lia) s eq_refl). lia.
Qed.






(** *** One pass over a literal *)



(** *** One pass over [open.*?close] *)









End SanitizeFacts.

Section SanitizeClaims.

Import PyStr ErrorHandling.




(** One pass per pattern: text joined by a deletion is not scanned again. *)
Lemma sanitize_response_residual_pattern :
  sanitize_response (lit "javajavascript:script:alert(1)")
  = lit "javascript:alert(1)"
  /\ sanitize_response (lit "click <scr<script></script>ipt>x</script>")
     = lit "click <script>x</script>".
Proof. split; by vm_compute. Qed.

End SanitizeClaims.

Section EmbeddingFacts.

Import PyStr ErrorHandling Config Hashlib RagService.

Local Open Scope N_scope.

Lemma hex_value_digit v : v < 16 -> hex_value (hex_digit v) = Some v.
Proof.
  intros Hv. destruct v as [|p]; [reflexivity|].
  do 4 (destruct p as [p|p|]; try reflexivity).
  all: exfalso; lia.
Qed.

(** Reading back the two digits written for a byte gives the byte. *)
Lemma int16_hex_pair b :
  b < 256 -> int16 [hex_digit (b / 16); hex_digit (b mod 16)] = Some b.
Proof.
  intros Hb. unfold int16.
  rewrite !hex_value_digit.
  - f_equal. symmetry. apply N.div_mod. lia.
  - apply N.mod_lt. lia.
  - apply N.Div0.div_lt_upper_bound. lia.
Qed.

Lemma le_bytes_bound n v : Forall (fun b => b < 256) (le_bytes n v).
Proof.
  revert v. induction n as [|n IH]; intros v; simpl; constructor; [|done].
  apply N.mod_lt. lia.
Qed.

Lemma le_bytes_length n v : length (le_bytes n v) = n.
Proof. revert v. induction n as [|n IH]; intros v; simpl; [done | by rewrite IH]. Qed.

(** The digest is sixteen bytes. *)
Lemma md5_digest_bytes data :
  length (md5_digest data) = 16%nat /\ Forall (fun b => b < 256) (md5_digest data).
Proof.
  unfold md5_digest. cbv zeta.
  destruct (foldl md5_block _ _) as [[[a b] c] d]. split.
  - by rewrite !length_app, !le_bytes_length.
  - repeat (apply Forall_app; split); apply le_bytes_bound.
Qed.

Lemma hash_values_hex bytes :
  Forall (fun b => b < 256) bytes ->
  hash_values (flat_map (fun b => [hex_digit (b / 16); hex_digit (b mod 16)]) bytes)
  = Some (map (fun b => (Z.of_N b # 255)%Q) bytes).
Proof.
  induction 1 as [|b bytes Hb _ IH]; [done|].
  cbn [flat_map app hash_values]. by rewrite int16_hex_pair, IH.
Qed.

(** No slice of a hexdigest fails to parse: the entries of the digest,
    each over 255, then zeros up to 384 entries. *)
Lemma get_free_embedding_digest text data :
  encode text = Some data ->
  _get_free_embedding text
  = map (fun b => (Z.of_N b # 255)%Q) (md5_digest data) ++ repeat 0%Q 368.
Proof.
  intros H. unfold _get_free_embedding, md5_hexdigest. rewrite H.
  destruct (md5_digest_bytes data) as [Hlen Hb].
  rewrite (hash_values_hex _ Hb). cbv zeta.
  rewrite length_map, Hlen.
  change (384 - 16)%nat with 368%nat.
  apply take_ge. rewrite length_app, length_map, Hlen, repeat_length. lia.
Qed.

End EmbeddingFacts.

Section EmbeddingClaims.

Import PyStr ErrorHandling Config Hashlib RagService.

Lemma pad_truncate_length (embedding : list Q) :
  length (take 384 (embedding ++ repeat 0%Q (384 - length embedding))) = 384%nat.
Proof. rewrite length_take, length_app, repeat_length. lia. Qed.

Lemma get_free_embedding_384 text : length (_get_free_embedding text) = 384%nat.
Proof.
  unfold _get_free_embedding. destruct (encode text) as [data|].
  - destruct (hash_values (md5_hexdigest data)) as [embedding|].
    + apply pad_truncate_length.
    + apply repeat_length.
  - apply repeat_length.
Qed.

(** C9 (as amended): the embedding is a function of the text alone; its
    length is 384 whatever the text, which is the default value of
    [vector_dimension]; a text that cannot be encoded (the one way the
    [try] body fails) gives the zero vector of length 384; any other text
    gives the sixteen bytes of its MD5 digest, each over 255, followed by
    368 zeros. *)
Theorem get_free_embedding_dimension (text : list N) :
  (forall text', text' = text ->
     _get_free_embedding text' = _get_free_embedding text)
  /\ length (_get_free_embedding text) = 384%nat
  /\ Z.of_nat (length (_get_free_embedding text)) = vector_dimension default_settings
  /\ (encode text = None -> _get_free_embedding text = repeat 0%Q 384)
  /\ (forall data, encode text = Some data ->
        _get_free_embedding text
        = map (fun b => Z.of_N b # 255) (md5_digest data) ++ repeat 0%Q 368).
Proof.
  split; [by intros ? ->|].
  split; [apply get_free_embedding_384|].
  split; [by rewrite get_free_embedding_384|].
  split; [|apply get_free_embedding_digest].
  intros H. unfold _get_free_embedding. by rewrite H.
Qed.

Lemma get_free_embedding_dimension_witness :
  encode [0x61%N; 0xD800%N] = None
  /\ _get_free_embedding [0x61%N; 0xD800%N] = repeat 0%Q 384.
Proof.
  split; [reflexivity|].
  exact (proj1 (proj2 (proj2 (proj2
           (get_free_embedding_dimension [0x61%N; 0xD800%N])))) eq_refl).
Defined.

(** C9 as stated: with [vector_dimension] configured as 512 the embedding
    still has 384 entries. *)
Lemma get_free_embedding_configured_counterexample :
  let st := {| gemini_model := gemini_model default_settings;
               gemini_temperature := gemini_temperature default_settings;
               gemini_max_tokens := gemini_max_tokens default_settings;
               vector_dimension := 512;
               max_requests_per_minute := max_requests_per_minute default_settings;
               max_context_chunks := max_context_chunks default_settings;
               similarity_threshold := similarity_threshold default_settings |} in
  let v := _get_free_embedding (code_points (lit "abc")) in
  vector_dimension st = 512
  /\ Z.of_nat (length v) = 384
  /\ Z.of_nat (length v) <> vector_dimension st.
Proof.
  cbv zeta. rewrite get_free_embedding_384. split; [done|]. split; done.
Qed.

End EmbeddingClaims.

Section ContextClaims.

Import PyStr ErrorHandling Config Hashlib RagService.

(** The loop invariant: the keys seen are the 50-character prefixes of the
    chunks read. *)
Lemma dedup_seen chunks : forall uc seen,
  forall k, k ∈ snd (foldl dedup_step (uc, seen) chunks)
            <-> k ∈ seen \/ k ∈ map (take 50) chunks.
Proof.
  induction chunks as [|c chunks IH]; intros uc seen k; simpl.
  - rewrite elem_of_nil. tauto.
  - rewrite elem_of_cons.
    destruct (decide (take 50 c ∈ seen)) as [Hin|Hout]; rewrite IH.
    + split; [tauto|]. intros [?|[->|?]]; tauto.
    + rewrite elem_of_union, elem_of_singleton. tauto.
Qed.

Lemma dedup_snoc chunks c :
  foldl dedup_step ([], ∅) (chunks ++ [c])
  = dedup_step (foldl dedup_step ([], ∅) chunks) c.
Proof. by rewrite foldl_app. Qed.

(** A chunk is kept exactly when no chunk before it has its prefix. *)
Lemma unique_context_snoc chunks c :
  unique_context (chunks ++ [c])
  = unique_context chunks
    ++ (if decide (take 50 c ∈ map (take 50) chunks) then [] else [c]).
Proof.
  unfold unique_context. rewrite dedup_snoc.
  pose proof (dedup_seen chunks [] ∅ (take 50 c)) as Hseen.
  destruct (foldl dedup_step ([], ∅) chunks) as [uc seen]. simpl in *.
  destruct (decide (take 50 c ∈ seen)) as [Hin|Hout];
    destruct (decide (take 50 c ∈ map (take 50) chunks)) as [Hin'|Hout']; simpl.
  - by rewrite app_nil_r.
  - exfalso. apply Hseen in Hin as [Hin|Hin]; [by apply elem_of_empty in Hin | done].
  - exfalso. apply Hout, Hseen. by right.
  - done.
Qed.

Lemma unique_context_nil : unique_context [] = [].
Proof. reflexivity. Qed.

Lemma unique_context_sublist chunks : unique_context chunks `sublist_of` chunks.
Proof.
  induction chunks as [|c chunks IH] using rev_ind; [done|].
  rewrite unique_context_snoc. apply sublist_app; [done|].
  destruct (decide _); [apply sublist_nil_l | done].
Qed.

Lemma unique_context_keys chunks k :
  k ∈ map (take 50) (unique_context chunks) <-> k ∈ map (take 50) chunks.
Proof.
  induction chunks as [|c chunks IH] using rev_ind; [done|].
  rewrite unique_context_snoc, !map_app, !elem_of_app, IH. simpl.
  destruct (decide (take 50 c ∈ map (take 50) chunks)) as [Hin|Hout]; simpl.
  - rewrite elem_of_nil, list_elem_of_singleton. split; [tauto|].
    intros [? | ->]; tauto.
  - done.
Qed.

Lemma unique_context_NoDup chunks : NoDup (map (take 50) (unique_context chunks)).
Proof.
  induction chunks as [|c chunks IH] using rev_ind; [constructor|].
  rewrite unique_context_snoc, map_app.
  destruct (decide (take 50 c ∈ map (take 50) chunks)) as [Hin|Hout]; simpl.
  - by rewrite app_nil_r.
  - apply NoDup_app. split; [done|]. split; [|apply NoDup_singleton].
    intros k Hk ->%list_elem_of_singleton. by apply Hout, unique_context_keys.
Qed.

(** C7: context assembly keeps a passage exactly when no earlier passage has
    the same first 50 characters, so the first passage of each distinct
    prefix survives and every later one with that prefix is dropped; the
    survivors stand in their original order; and the context block is the
    survivors joined by a blank line, placed in the prompt between its fixed
    parts. *)
Theorem unique_context_first_per_prefix
    (context_chunks : list (list ascii)) :
  unique_context [] = []
  /\ (forall chunk,
        unique_context (context_chunks ++ [chunk])
        = unique_context context_chunks
          ++ (if decide (take 50 chunk ∈ map (take 50) context_chunks)
              then [] else [chunk]))
  /\ unique_context context_chunks `sublist_of` context_chunks
  /\ NoDup (map (take 50) (unique_context context_chunks))
  /\ (forall k, k ∈ map (take 50) (unique_context context_chunks)
                <-> k ∈ map (take 50) context_chunks)
  /\ context_block context_chunks
     = join [ascii_of_N 10; ascii_of_N 10] (unique_context context_chunks)
  /\ (forall head middle tail query,
        _construct_enhanced_prompt head middle tail query context_chunks
        = head ++ context_block context_chunks ++ middle ++ query ++ tail)
  /\ (forall a b c rest, join [ascii_of_N 10; ascii_of_N 10] (a :: b :: rest)
        = a ++ [ascii_of_N 10; ascii_of_N 10]
            ++ join [ascii_of_N 10; ascii_of_N 10] (b :: rest)
        /\ join [ascii_of_N 10; ascii_of_N 10] [c] = c).
Proof.
  split; [apply unique_context_nil|].
  split; [intros; apply unique_context_snoc|].
  split; [apply unique_context_sublist|].
  split; [apply unique_context_NoDup|].
  split; [apply unique_context_keys|].
  split; [done|]. split; [done|]. done.
Qed.

(** Three passages, the first two alike over their first 50 characters:
    two are kept, the first and the third. *)
Lemma unique_context_example :
  let p1 := lit "The Pythagorean theorem relates the sides of a right triangle: a2 + b2 = c2." in
  let p2 := lit "The Pythagorean theorem relates the sides of a right triangle, see chapter 7." in
  let p3 := lit "Area formulas for circles and sectors." in
  take 50 p1 = take 50 p2
  /\ unique_context [p1; p2; p3] = [p1; p3]
  /\ context_block [p1; p2; p3] = p1 ++ [ascii_of_N 10; ascii_of_N 10] ++ p3.
Proof. cbv zeta. repeat split; by vm_compute. Qed.

End ContextClaims.

Section RetrievalClaims.

Import PyStr ErrorHandling Config Hashlib RagService Samples.





End RetrievalClaims.

Section RetryClaims.

Import PyStr ErrorHandling Config Hashlib RagService Samples.

Lemma attempts_app t1 t2 : attempts (t1 ++ t2) = (attempts t1 + attempts t2)%nat.
Proof. unfold attempts. by rewrite filter_app, length_app. Qed.

Lemma sleeps_app t1 t2 : sleeps (t1 ++ t2) = sleeps t1 ++ sleeps t2.
Proof. unfold sleeps. apply omap_app. Qed.

Lemma attempts_failed prompt n attempt :
  attempts (failed_attempts prompt n attempt) = n.
Proof.
  revert attempt. induction n as [|n IH]; intros attempt; [done|].
  simpl. unfold attempts in *. rewrite filter_cons. simpl.
  rewrite filter_cons. simpl. by rewrite IH.
Qed.

Lemma sleeps_failed prompt n attempt :
  sleeps (failed_attempts prompt n attempt)
  = map (fun i => 2 ^ (attempt + Z.of_nat i)) (seq 0 n).
Proof.
  revert attempt. induction n as [|n IH]; intros attempt; [done|].
  simpl. unfold sleeps in *. simpl. rewrite IH, Z.add_0_r. f_equal.
  rewrite <- seq_shift, map_map. apply map_ext. intros i. f_equal. lia.
Qed.

Lemma retry_loop_S self prompt max_retries remaining attempt w :
  retry_loop self prompt max_retries (S remaining) attempt w
  = match generate_content self prompt w with
    | (Return text, w1) => (Return (Some text), w1)
    | (Raise e, w1) =>
        if attempt =? max_retries - 1
        then (Raise (retry_failure max_retries e), w1)
        else retry_loop self prompt max_retries remaining (attempt + 1)
                        (sleep (2 ^ attempt) w1)
    end.
Proof. reflexivity. Qed.



(** While iterations are left and the last one carries the number
    [max_retries - 1], the loop ends by a return of text or by a raise,
    never by falling off its end. *)
Lemma retry_loop_never_none self prompt max_retries :
  forall remaining attempt w,
    attempt + Z.of_nat (S remaining) = max_retries ->
    fst (retry_loop self prompt max_retries (S remaining) attempt w) <> Return None.
Proof.
  induction remaining as [|r IH]; intros attempt w Hlast; rewrite retry_loop_S;
    destruct (generate_content self prompt w) as [[text|e] w1]; try done.
  - destruct (Z.eqb_spec attempt (max_retries - 1)); [done | lia].
  - destruct (Z.eqb_spec attempt (max_retries - 1)); [done|]. apply IH. lia.
Qed.




End RetryClaims.

Section PipelineClaims.

Import PyStr ErrorHandling Config Hashlib RagService Samples.

Variables prompt_head prompt_middle prompt_tail : list ascii.

Lemma get_relevant_context_model st self m query n :
  _get_relevant_context st (mkService (index self) m) query n
  = _get_relevant_context st self query n.
Proof. reflexivity. Qed.

(** C3: for a query that passes validation and for which retrieval returns
    no passage, [generate_response] returns the fixed message as its result,
    not an exception, and leaves the world as it found it: no model call is
    made, whatever the model is. *)
Theorem generate_response_no_context
    (st : Settings) (self : GeminiRAGService) (query : list ascii)
    (scores : list Q) (w : world) :
  validate_input query = Return tt ->
  _get_relevant_context st self query None = Return ([], scores) ->
  generate_response prompt_head prompt_middle prompt_tail st self query w
  = (Return no_information, w)
  /\ (forall m,
        generate_response prompt_head prompt_middle prompt_tail st
          (mkService (index self) m) query w
        = (Return no_information, w))
  /\ attempts (trace (snd (generate_response prompt_head prompt_middle prompt_tail
                             st self query w)))
     = attempts (trace w).
Proof.
  intros Hvalid Hctx.
  assert (H : forall m,
            generate_response prompt_head prompt_middle prompt_tail st
              (mkService (index self) m) query w
            = (Return no_information, w)).
  { intros m. unfold generate_response.
    by rewrite Hvalid, get_relevant_context_model, Hctx. }
  assert (H' : generate_response prompt_head prompt_middle prompt_tail st self query w
               = (Return no_information, w)).
  { unfold generate_response. by rewrite Hvalid, Hctx. }
  split; [done|]. split; [done|]. by rewrite H'.
Qed.

End PipelineClaims.

Section PipelineWitness.

Import PyStr ErrorHandling Config Hashlib RagService Samples.

Lemma generate_response_no_context_witness :
  let self := mkService (Some weak_index) failing_model in
  let query := lit "what is the area of a circle" in
  validate_input query = Return tt
  /\ _get_relevant_context default_settings self query None = Return ([], [])
  /\ generate_response [] [] [] default_settings self query world0
     = (Return no_information, world0).
Proof.
  cbv zeta.
  assert (Hv : validate_input (lit "what is the area of a circle") = Return tt)
    by (by vm_compute).
  assert (Hc : _get_relevant_context default_settings
                 (mkService (Some weak_index) failing_model)
                 (lit "what is the area of a circle") None = Return ([], []))
    by reflexivity.
  split; [exact Hv|]. split; [exact Hc|].
  exact (proj1 (generate_response_no_context [] [] [] default_settings
                  (mkService (Some weak_index) failing_model)
                  (lit "what is the area of a circle") [] world0 Hv Hc)).
Defined.

End PipelineWitness.

(** * Further properties of the limiter *)

Section SlidingWindowFacts.

Import RateLimiting.

Lemma evict_split cutoff d :
  exists ev, d = ev ++ evict cutoff d /\ Forall (fun t => (t < cutoff)%Q) ev.
Proof.
  induction d as [|t d (ev & Hd & Hev)]; simpl; [by exists []|].
  destruct (Qltb t cutoff) eqn:E.
  - exists (t :: ev). split; [by rewrite Hd at 1|].
    constructor; [by apply Qltb_lt | done].
  - by exists [].
Qed.

Lemma Sorted_Qle_head (t : Q) d :
  Sorted Qle (t :: d) -> Forall (fun x => (t <= x)%Q) (t :: d).
Proof.
  intros H. apply Sorted_StronglySorted in H; [|intros x y z; apply Qle_trans].
  inversion H; subst. constructor; [apply Qle_refl | done].
Qed.

Lemma evict_sorted_fresh cutoff d :
  Sorted Qle d -> Forall (fun t => (cutoff <= t)%Q) (evict cutoff d).
Proof.
  intros Hs. destruct (evict cutoff d) as [|t d'] eqn:E; [constructor|].
  pose proof (evict_head _ _ _ _ E) as Ht.
  assert (Hs' : Sorted Qle (t :: d')).
  { rewrite <- E. eapply Sorted_suffix; [apply evict_suffix | done]. }
  eapply Forall_impl; [apply (Sorted_Qle_head _ _ Hs')|]. simpl. intros x Hx. lra.
Qed.

Lemma Sorted_Qle_app_l (l1 l2 : list Q) : Sorted Qle (l1 ++ l2) -> Sorted Qle l1.
Proof.
  induction l1 as [|x l1 IH]; simpl; [constructor|].
  intros H. inversion H as [|? ? Hs Hh]; subst. constructor; [by apply IH|].
  destruct l1; simpl in *; [constructor | by inversion Hh; constructor].
Qed.

Lemma count_since_app cutoff l1 l2 :
  count_since cutoff (l1 ++ l2) = (count_since cutoff l1 + count_since cutoff l2)%nat.
Proof. unfold count_since. by rewrite filter_app, length_app. Qed.

Lemma count_since_stale cutoff l :
  Forall (fun t => (t < cutoff)%Q) l -> count_since cutoff l = 0%nat.
Proof.
  unfold count_since. induction 1 as [|t l Ht _ IH]; [done|].
  rewrite filter_cons. destruct (decide _) as [E|E]; [|done].
  apply Qle_bool_iff in E. lra.
Qed.

Lemma count_since_fresh cutoff l :
  Forall (fun t => (cutoff <= t)%Q) l -> count_since cutoff l = length l.
Proof.
  unfold count_since. induction 1 as [|t l Ht _ IH]; [done|].
  rewrite filter_cons. destruct (decide _) as [E|E]; [simpl; by rewrite IH|].
  exfalso. apply E. by apply Qle_bool_iff.
Qed.

Lemma count_between_app lo hi l1 l2 :
  count_between lo hi (l1 ++ l2)
  = (count_between lo hi l1 + count_between lo hi l2)%nat.
Proof. unfold count_between. by rewrite filter_app, length_app. Qed.

Lemma count_between_since lo hi cutoff l :
  (cutoff <= lo)%Q -> (count_between lo hi l <= count_since cutoff l)%nat.
Proof.
  intros Hc. unfold count_between, count_since.
  induction l as [|t l IH]; [done|]. rewrite !filter_cons.
  destruct (decide (Qle_bool lo t && Qle_bool t hi = true)) as [E|E];
    destruct (decide (Qle_bool cutoff t = true)) as [F|F]; simpl; try lia.
  exfalso. apply F. apply andb_true_iff in E as [E _].
  apply Qle_bool_iff in E. apply Qle_bool_iff. lra.
Qed.

(** In a state that [history_ok] describes, the eviction loop leaves the
    admitted timestamps that are at or after the cutoff, all of them. *)
Lemma history_evict w ip rl log t0 now :
  history_ok w ip rl log t0 -> (t0 <= now)%Q ->
  exists old',
    log = old' ++ evict (now - inject_Z w) (window rl ip)
    /\ Forall (fun t => (t < now - inject_Z w)%Q) old'
    /\ Z.of_nat (length (evict (now - inject_Z w) (window rl ip)))
       = Z.of_nat (count_since (now - inject_Z w) log).
Proof.
  intros (old & Hlog & Hold & Hs & Hb) Hnow.
  destruct (evict_split (now - inject_Z w) (window rl ip)) as (ev & Hev & Hstale).
  assert (Hold' : Forall (fun t => (t < now - inject_Z w)%Q) (old ++ ev)).
  { apply Forall_app. split; [|done].
    eapply Forall_impl; [exact Hold|]. simpl. intros x Hx. lra. }
  exists (old ++ ev). split; [|split; [done|]].
  - rewrite <- app_assoc, <- Hev. done.
  - assert (Hlog' : log = (old ++ ev) ++ evict (now - inject_Z w) (window rl ip)).
    { rewrite <- app_assoc, <- Hev. done. }
    rewrite Hlog'. rewrite count_since_app, count_since_stale by done.
    rewrite count_since_fresh; [done|]. apply evict_sorted_fresh.
    rewrite Hlog in Hs. clear -Hs.
    induction old as [|x old IH]; [done|]. apply IH. by inversion Hs.
Qed.

(** One call keeps [history_ok], the log growing by the reading of an
    admitted call on [ip]. *)
Lemma history_step m w ip rl log t0 c :
  history_ok w ip rl log t0 -> (t0 <= call_now c)%Q -> call_window c = w ->
  let r := is_allowed rl (call_ip c) m (call_window c) (call_now c) in
  history_ok w ip (snd r)
    (log ++ (if fst r && bool_decide (call_ip c = ip) then [call_now c] else []))
    (call_now c).
Proof.
  intros Hinv Hnow Hw r.
  destruct (decide (call_ip c = ip)) as [Hip|Hip].
  - rewrite bool_decide_eq_true_2 by done. rewrite andb_true_r.
    destruct (history_evict _ _ _ _ _ _ Hinv Hnow) as (old' & Hlog & Hold' & _).
    destruct Hinv as (_ & _ & _ & Hs & Hb).
    assert (Hb' : Forall (fun t => (t <= call_now c)%Q) log).
    { eapply Forall_impl; [exact Hb|]. simpl. intros x Hx. lra. }
    unfold r. rewrite Hip, Hw. destruct (fst (is_allowed rl ip m w (call_now c))) eqn:E.
    + apply is_allowed_accepted in E as [E _]. exists old'. rewrite E.
      split; [by rewrite Hlog, <- app_assoc|]. split; [done|].
      split; [by apply Sorted_Qle_snoc|].
      apply Forall_app. split; [done|]. constructor; [apply Qle_refl | constructor].
    + apply is_allowed_rejected in E as [E _]. exists old'. rewrite E, app_nil_r.
      by repeat split.
  - rewrite bool_decide_eq_false_2 by done. rewrite andb_false_r, app_nil_r.
    destruct Hinv as (old & Hlog & Hold & Hs & Hb). exists old.
    unfold r. rewrite is_allowed_other by done. split; [done|].
    split; [eapply Forall_impl; [exact Hold|]; simpl; intros x Hx; lra|].
    split; [done|]. eapply Forall_impl; [exact Hb|]. simpl. intros x Hx. lra.
Qed.

Lemma last_clock_cons t0 c cs : last_clock t0 (c :: cs) = last_clock (call_now c) cs.
Proof. reflexivity. Qed.

Lemma history_run m w ip cs : forall rl log t0,
  history_ok w ip rl log t0 -> clock_from t0 cs ->
  Forall (fun c => call_window c = w) cs ->
  history_ok w ip (run m rl cs) (log ++ admitted m ip rl cs) (last_clock t0 cs).
Proof.
  induction cs as [|c cs IH]; intros rl log t0 Hinv Hc Hw.
  - simpl. by rewrite app_nil_r.
  - destruct Hc as [Hnow Hc]. inversion Hw as [|? ? Hwc Hw']; subst.
    cbn [run admitted]. rewrite app_assoc, last_clock_cons. apply IH; [|done..].
    by apply (history_step m (call_window c) ip rl log t0).
Qed.

Lemma history_init w ip t0 : history_ok w ip init [] t0.
Proof. exists []. rewrite window_init. repeat split; constructor. Qed.

Lemma clock_from_app t0 cs c :
  clock_from t0 (cs ++ [c])
  <-> clock_from t0 cs /\ (last_clock t0 cs <= call_now c)%Q.
Proof.
  revert t0. induction cs as [|x cs IH]; intros t0.
  - unfold last_clock. simpl. tauto.
  - cbn [app clock_from]. rewrite IH, last_clock_cons. tauto.
Qed.

(** From a fresh limiter: the state after the calls and the log of what
    they admitted, at a reading [now] not before the last call. *)
Lemma history_reached m w ip cs now :
  clock_nondecreasing (cs ++ [mkCall ip w now]) ->
  Forall (fun c => call_window c = w) cs ->
  exists t0, history_ok w ip (run m init cs) (admitted m ip init cs) t0
             /\ (t0 <= now)%Q.
Proof.
  intros Hc Hw. destruct cs as [|c cs].
  - exists now. split; [apply history_init | apply Qle_refl].
  - simpl in Hc. apply clock_from_app in Hc as [Hc Hlast].
    exists (last_clock (call_now c) (c :: cs)). split.
    + apply (history_run m w ip (c :: cs) init [] (call_now c)); [apply history_init| |done].
      simpl. split; [apply Qle_refl | done].
    + rewrite last_clock_cons. exact Hlast.
Qed.

Lemma interval_step m w ip rl log t0 c :
  history_ok w ip rl log t0 -> interval_ok m w log ->
  (t0 <= call_now c)%Q -> call_window c = w ->
  let r := is_allowed rl (call_ip c) m (call_window c) (call_now c) in
  interval_ok m w
    (log ++ (if fst r && bool_decide (call_ip c = ip) then [call_now c] else [])).
Proof.
  intros Hinv Hint Hnow Hw r.
  destruct (fst r && bool_decide (call_ip c = ip)) eqn:E; [|by rewrite app_nil_r].
  apply andb_true_iff in E as [Hok Hip]. apply bool_decide_eq_true in Hip.
  unfold r in Hok. rewrite Hip, Hw in Hok.
  apply is_allowed_accepted in Hok as [_ Hroom].
  destruct (history_evict _ _ _ _ _ _ Hinv Hnow) as (_ & _ & _ & Hcount).
  rewrite Hcount in Hroom.
  intros s. rewrite count_between_app. specialize (Hint s).
  unfold count_between at 2. rewrite filter_cons, filter_nil.
  destruct (decide _) as [Hin|Hout]; simpl; [|lia].
  apply andb_true_iff in Hin as [_ Hhi]. apply Qle_bool_iff in Hhi.
  pose proof (count_between_since s (s + inject_Z w) (call_now c - inject_Z w) log
                ltac:(lra)).
  lia.
Qed.

Lemma interval_run m w ip cs : forall rl log t0,
  history_ok w ip rl log t0 -> interval_ok m w log -> clock_from t0 cs ->
  Forall (fun c => call_window c = w) cs ->
  interval_ok m w (log ++ admitted m ip rl cs).
Proof.
  induction cs as [|c cs IH]; intros rl log t0 Hinv Hint Hc Hw.
  - simpl. by rewrite app_nil_r.
  - destruct Hc as [Hnow Hc]. inversion Hw as [|? ? Hwc Hw']; subst.
    cbn [admitted]. rewrite app_assoc. apply (IH _ _ (call_now c)); [| |done..].
    + by apply (history_step m (call_window c) ip rl log t0).
    + by apply (interval_step m (call_window c) ip rl log t0).
Qed.

End SlidingWindowFacts.

Section SlidingWindowProperties.

Import RateLimiting.

(** X1: on a limiter fed from its creation with calls of one window length
    and non-decreasing clock readings, a check is allowed exactly when fewer
    than [max_requests] of the requests admitted for the key so far carry a
    timestamp at or after [now - window_seconds]. *)
Theorem is_allowed_iff_room_in_window
    (m w : Z) (ip : string) (cs : list call) (now : Q) :
  clock_nondecreasing (cs ++ [mkCall ip w now]) ->
  Forall (fun c => call_window c = w) cs ->
  fst (is_allowed (run m init cs) ip m w now) = true
  <-> Z.of_nat (count_since (now - inject_Z w) (admitted m ip init cs)) < m.
Proof.
  intros Hc Hw.
  destruct (history_reached m w ip cs now Hc Hw) as (t0 & Hinv & Hnow).
  destruct (history_evict _ _ _ _ _ _ Hinv Hnow) as (_ & _ & _ & Hcount).
  rewrite <- Hcount. split.
  - by intros [_ H]%is_allowed_accepted.
  - intros H. destruct (fst (is_allowed (run m init cs) ip m w now)) eqn:E; [done|].
    apply is_allowed_rejected in E as [_ E]. lia.
Qed.

Lemma is_allowed_iff_room_in_window_witness :
  let cs := [mkCall "a" 60 0; mkCall "b" 60 10; mkCall "a" 60 30; mkCall "a" 60 40] in
  clock_nondecreasing (cs ++ [mkCall "a" 60 61])
  /\ Forall (fun c => call_window c = 60) cs
  /\ admitted 2 "a" init cs = [0%Q; 30%Q]
  /\ (fst (is_allowed (run 2 init cs) "a" 2 60 61) = true
      <-> Z.of_nat (count_since (61 - inject_Z 60) (admitted 2 "a" init cs)) < 2).
Proof.
  cbv zeta.
  assert (Hc : clock_nondecreasing
            ([mkCall "a" 60 0; mkCall "b" 60 10; mkCall "a" 60 30; mkCall "a" 60 40]
               ++ [mkCall "a" 60 61])).
  { simpl. repeat split; by intros ?. }
  assert (Hw : Forall (fun c => call_window c = 60)
            [mkCall "a" 60 0; mkCall "b" 60 10; mkCall "a" 60 30; mkCall "a" 60 40])
    by (repeat constructor).
  split; [exact Hc|]. split; [exact Hw|]. split; [reflexivity|].
  exact (is_allowed_iff_room_in_window 2 60 "a" _ 61 Hc Hw).
Defined.

(** X2: on such a limiter with a non-negative [max_requests], no closed
    time interval of length [window_seconds] holds more than [max_requests]
    of the timestamps admitted for a key. *)
Theorem admitted_at_most_per_interval
    (m w : Z) (ip : string) (cs : list call) (s : Q) :
  0 <= m ->
  clock_nondecreasing cs ->
  Forall (fun c => call_window c = w) cs ->
  Z.of_nat (count_between s (s + inject_Z w) (admitted m ip init cs)) <= m.
Proof.
  intros Hm Hc Hw. destruct cs as [|c cs]; [by unfold count_between|].
  apply (interval_run m w ip (c :: cs) init [] (call_now c)); [| | |done].
  - apply history_init.
  - intros s'. by unfold count_between.
  - simpl. split; [apply Qle_refl | done].
Qed.

Lemma admitted_at_most_per_interval_witness :
  let cs := [mkCall "a" 60 0; mkCall "a" 60 30; mkCall "a" 60 40; mkCall "a" 60 61;
             mkCall "a" 60 62; mkCall "a" 60 95] in
  admitted 2 "a" init cs = [0%Q; 30%Q; 61%Q; 95%Q]
  /\ Z.of_nat (count_between 30 (30 + inject_Z 60) (admitted 2 "a" init cs)) <= 2.
Proof.
  cbv zeta. split; [reflexivity|].
  apply admitted_at_most_per_interval.
  - by intros ?.
  - simpl. repeat split; by intros ?.
  - repeat constructor.
Defined.

End SlidingWindowProperties.

Section LimiterKeys.

Import RateLimiting.

Lemma set_window_commute rl i j a b :
  i <> j ->
  set_window (set_window rl i a) j b = set_window (set_window rl j b) i a.
Proof.
  intros Hne. unfold set_window. simpl. f_equal. by apply insert_insert_ne.
Qed.

Lemma is_allowed_state rl ip m w now :
  exists d, snd (is_allowed rl ip m w now) = set_window rl ip d.
Proof. unfold is_allowed. cbv zeta. destruct (_ >=? _); eexists; reflexivity. Qed.

Lemma is_allowed_window_only rl rl' ip m w now :
  window rl ip = window rl' ip ->
  fst (is_allowed rl ip m w now) = fst (is_allowed rl' ip m w now)
  /\ window (snd (is_allowed rl ip m w now)) ip
     = window (snd (is_allowed rl' ip m w now)) ip.
Proof.
  intros H. unfold is_allowed. cbv zeta. rewrite H.
  destruct (_ >=? _); simpl; by rewrite !window_set_window.
Qed.

(** X3: checks on two different keys do not see each other: made in either
    order they return the same two answers and leave the same limiter. *)
Theorem is_allowed_keys_commute
    (rl : AdvancedRateLimiter) (ip1 ip2 : string) (m1 w1 m2 w2 : Z) (t1 t2 : Q) :
  ip1 <> ip2 ->
  let a := is_allowed rl ip1 m1 w1 t1 in
  let b := is_allowed (snd a) ip2 m2 w2 t2 in
  let b' := is_allowed rl ip2 m2 w2 t2 in
  let a' := is_allowed (snd b') ip1 m1 w1 t1 in
  fst a' = fst a /\ fst b = fst b' /\ snd a' = snd b.
Proof.
  intros Hne. cbv zeta.
  assert (Ha : window (snd (is_allowed rl ip2 m2 w2 t2)) ip1 = window rl ip1)
    by (by apply is_allowed_other).
  assert (Hb : window (snd (is_allowed rl ip1 m1 w1 t1)) ip2 = window rl ip2)
    by (by apply is_allowed_other).
  split; [by apply is_allowed_window_only|].
  split; [by apply is_allowed_window_only|].
  unfold is_allowed. cbv zeta.
  assert (E1 : forall d b, window (set_window rl ip2 d) ip1 = window rl ip1)
    by (intros; by apply window_set_window_ne).
  assert (E2 : forall d, window (set_window rl ip1 d) ip2 = window rl ip2)
    by (intros; by apply window_set_window_ne).
  destruct (Z.of_nat (length (evict (t2 - inject_Z w2) (window rl ip2))) >=? m2) eqn:F2;
    destruct (Z.of_nat (length (evict (t1 - inject_Z w1) (window rl ip1))) >=? m1) eqn:F1;
    simpl; rewrite ?window_set_window_ne by done; rewrite ?F1, ?F2; simpl;
    by apply set_window_commute.
Qed.

Lemma is_allowed_keys_commute_witness :
  let rl := run 1 init [mkCall "a" 60 0] in
  ("a" : string) <> "b"
  /\ fst (is_allowed (snd (is_allowed rl "b" 1 60 5)) "a" 1 60 5)
     = fst (is_allowed rl "a" 1 60 5)
  /\ snd (is_allowed (snd (is_allowed rl "b" 1 60 5)) "a" 1 60 5)
     = snd (is_allowed (snd (is_allowed rl "a" 1 60 5)) "b" 1 60 5).
Proof.
  cbv zeta.
  assert (Hne : ("a" : string) <> "b") by discriminate.
  split; [exact Hne|].
  pose proof (is_allowed_keys_commute (run 1 init [mkCall "a" 60 0])
                "a" "b" 1 60 1 60 5 5 Hne) as H.
  cbv zeta in H. destruct H as (H1 & _ & H3). split; [exact H1 | exact H3].
Defined.

Lemma dom_set_window rl ip d :
  dom (requests (set_window rl ip d)) = {[ip]} ∪ dom (requests rl).
Proof. unfold set_window. simpl. apply dom_insert_L. Qed.

Lemma is_allowed_dom rl ip m w now :
  dom (requests (snd (is_allowed rl ip m w now))) = {[ip]} ∪ dom (requests rl).
Proof. destruct (is_allowed_state rl ip m w now) as [d ->]. apply dom_set_window. Qed.

(** X4: the limiter holds a key for every address ever checked or read,
    admitted or not, and never drops one: after a sequence of checks on a
    fresh limiter the keys are exactly the addresses of the calls, and a
    check, [get_reset_time] or [get_rate_limit_info] on an address adds that
    address to the keys and removes none. *)
Theorem limiter_keys_only_grow
    (m : Z) (rl : AdvancedRateLimiter) (cs : list call)
    (ip : string) (w : Z) (now now' : Q) :
  dom (requests (run m init cs)) = list_to_set (map call_ip cs)
  /\ dom (requests (run m rl cs)) = list_to_set (map call_ip cs) ∪ dom (requests rl)
  /\ dom (requests (snd (is_allowed rl ip m w now))) = {[ip]} ∪ dom (requests rl)
  /\ dom (requests (snd (get_reset_time rl ip w now))) = {[ip]} ∪ dom (requests rl)
  /\ dom (requests (snd (get_rate_limit_info rl ip now now')))
     = {[ip]} ∪ dom (requests rl).
Proof.
  assert (Hrun : forall cs rl,
            dom (requests (run m rl cs))
            = list_to_set (map call_ip cs) ∪ dom (requests rl)).
  { clear. induction cs as [|c cs IH]; intros rl; simpl; [set_solver|].
    rewrite IH, is_allowed_dom. set_solver. }
  assert (Hreset : forall rl ip w now,
            dom (requests (snd (get_reset_time rl ip w now)))
            = {[ip]} ∪ dom (requests rl)).
  { clear. intros rl ip w now. unfold get_reset_time.
    destruct (window rl ip); simpl; apply dom_insert_L. }
  split; [rewrite Hrun; simpl; set_solver|].
  split; [apply Hrun|]. split; [apply is_allowed_dom|]. split; [apply Hreset|].
  unfold get_rate_limit_info. cbv zeta.
  destruct (get_reset_time (set_window rl ip (window rl ip)) ip 60 now') as [rt rl2] eqn:E.
  simpl. replace rl2 with (snd (get_reset_time (set_window rl ip (window rl ip)) ip 60 now'))
    by (by rewrite E).
  rewrite Hreset, dom_set_window. set_solver.
Qed.

End LimiterKeys.

Section LimiterInfo.

Import RateLimiting.

Lemma run_window_last m cs : forall rl t0,
  clock_from t0 cs ->
  (forall k, window_sorted t0 (window rl k)) ->
  forall k, window_sorted (last_clock t0 cs) (window (run m rl cs) k).
Proof.
  induction cs as [|c cs IH]; intros rl t0 Hc Hinv; [done|].
  destruct Hc as [Ht Hc]. cbn [run]. rewrite last_clock_cons.
  apply IH; [done|].
  by apply (is_allowed_window_sorted rl (call_ip c) m (call_window c) t0).
Qed.

(** On a limiter reached from its creation, read at [now] not before the
    last call: every stored timestamp is at most [now]. *)
Lemma run_init_not_later m cs key w now :
  clock_nondecreasing (cs ++ [mkCall key w now]) ->
  Forall (fun t => (t <= now)%Q) (window (run m init cs) key).
Proof.
  intros Hc. destruct cs as [|c cs]; [rewrite window_init; constructor|].
  simpl in Hc. apply clock_from_app in Hc as [Hc Hlast]. simpl in Hlast.
  destruct (run_window_last m (c :: cs) init (call_now c)) with (k := key) as [_ Hb].
  - simpl. split; [apply Qle_refl | done].
  - intros k. rewrite window_init. split; constructor.
  - rewrite last_clock_cons in Hb.
    eapply Forall_impl; [exact Hb|]. simpl. intros x Hx. lra.
Qed.

(** X5: on a limiter fed from its creation with a limit between 0 and 60,
    read not before the last call, [get_rate_limit_info] reports a request
    count between 0 and the limit, [requests_remaining] equal to 60 minus
    that count, a reset time at most 60 seconds after the reading (the
    reading itself when nothing is stored), and stores back what it read. *)
Theorem get_rate_limit_info_consistent
    (m : Z) (cs : list call) (key : string) (now1 now2 : Q) :
  0 <= m <= 60 ->
  clock_nondecreasing (cs ++ [mkCall key 60 now2]) ->
  let rl := run m init cs in
  let info := fst (get_rate_limit_info rl key now1 now2) in
  0 <= current_requests info <= m
  /\ requests_remaining info = 60 - current_requests info
  /\ (reset_time info <= now2 + 60)%Q
  /\ (window rl key = [] -> reset_time info = now2)
  /\ window (snd (get_rate_limit_info rl key now1 now2)) key = window rl key.
Proof.
  intros Hm Hc rl info.
  pose proof (run_init_bounded m cs key (proj1 Hm)) as Hlen.
  pose proof (run_init_not_later m cs key 60 now2 Hc) as Hle.
  fold rl in Hlen, Hle.
  assert (Hcount : 0 <= current_requests info <= m).
  { unfold info, get_rate_limit_info. cbv zeta.
    destruct (get_reset_time _ key 60 now2) as [rt rl2]. simpl.
    pose proof (length_filter (fun req_time =>
                  Qltb (now1 - inject_Z 60) req_time = true) (window rl key)).
    lia. }
  split; [done|]. split.
  { revert Hcount. unfold info, get_rate_limit_info. cbv zeta.
    destruct (get_reset_time _ key 60 now2) as [rt rl2]. simpl. lia. }
  assert (Hrt : reset_time info
                = fst (get_reset_time (set_window rl key (window rl key)) key 60 now2)).
  { unfold info, get_rate_limit_info. cbv zeta.
    by destruct (get_reset_time _ key 60 now2) as [rt rl2]. }
  split; [|split].
  - rewrite Hrt. unfold get_reset_time. rewrite window_set_window.
    destruct (window rl key) as [|t d]; simpl.
    + lra.
    + inversion Hle; subst. change (inject_Z 60) with 60%Q. lra.
  - intros Hempty. rewrite Hrt. unfold get_reset_time.
    by rewrite window_set_window, Hempty.
  - apply get_rate_limit_info_keeps.
Qed.

Lemma get_rate_limit_info_consistent_witness :
  let cs := [mkCall "a" 60 0; mkCall "a" 60 30] in
  let info := fst (get_rate_limit_info (run 60 init cs) "a" 45 45) in
  0 <= 60 <= 60
  /\ clock_nondecreasing (cs ++ [mkCall "a" 60 45])
  /\ current_requests info = 2
  /\ requests_remaining info = 60 - current_requests info.
Proof.
  cbv zeta.
  assert (Hm : 0 <= 60 <= 60) by (split; by intros ?).
  assert (Hc : clock_nondecreasing
            ([mkCall "a" 60 0; mkCall "a" 60 30] ++ [mkCall "a" 60 45])).
  { simpl. repeat split; by intros ?. }
  split; [exact Hm|]. split; [exact Hc|]. split; [reflexivity|].
  pose proof (get_rate_limit_info_consistent 60 _ "a" 45 45 Hm Hc) as H.
  cbv zeta in H. exact (proj1 (proj2 H)).
Defined.

End LimiterInfo.

(** * Further properties of the service *)

Section QueryEnhancement.

Import PyStr ErrorHandling Config Hashlib RagService.

Lemma enhance_with_prefix table ql q : q `prefix_of` enhance_with table ql q.
Proof.
  induction table as [|[k a] table IH]; simpl; [done|].
  destruct (contains k ql); [by apply prefix_app_r | done].
Qed.

Lemma enhance_with_none table ql q :
  Forall (fun p => contains (fst p) ql = false) table -> enhance_with table ql q = q.
Proof.
  induction 1 as [|[k a] table Hk _ IH]; simpl; [done|]. simpl in Hk. by rewrite Hk.
Qed.

Lemma enhance_with_first table ql q i k a :
  table !! i = Some (k, a) ->
  contains k ql = true ->
  (forall j p, (j < i)%nat -> table !! j = Some p -> contains (fst p) ql = false) ->
  enhance_with table ql q = q ++ lit " " ++ a.
Proof.
  revert i. induction table as [|[k' a'] table IH]; intros i Hi Hk Hbefore; [done|].
  destruct i as [|i]; simpl in *.
  - injection Hi as -> ->. by rewrite Hk.
  - pose proof (Hbefore 0%nat (k', a') ltac:(lia) eq_refl) as H0.
    simpl in H0. rewrite H0. apply (IH i); [done..|].
    intros j p Hj Hp. apply (Hbefore (S j) p); [lia | done].
Qed.

Lemma math_keywords_lower : Forall (fun p => lower (fst p) = fst p) math_keywords.
Proof. repeat constructor. Qed.

Lemma keyword_contains q p :
  p ∈ math_keywords -> contains (fst p) (lower q) = true <-> occurs_ci (fst p) q.
Proof.
  intros Hp. pose proof math_keywords_lower as Hl. rewrite Forall_forall in Hl.
  rewrite <- contains_lower_occurs. by rewrite (Hl p Hp).
Qed.

(** X7: [_enhance_query] leaves a query that holds none of the six keywords
    as it is; otherwise it appends one space and the hint of the first
    keyword of the table that occurs in the query, whatever the case of its
    letters, and nothing for the keywords after it.  The query is always the
    start of the result, which is at most 31 characters longer. *)
Theorem enhance_query_first_keyword (query : list ascii) :
  query `prefix_of` _enhance_query query
  /\ (length (_enhance_query query) <= length query + 31)%nat
  /\ ((forall p, p ∈ math_keywords -> ~ occurs_ci (fst p) query) ->
      _enhance_query query = query)
  /\ (forall i keyword additions,
        math_keywords !! i = Some (keyword, additions) ->
        occurs_ci keyword query ->
        (forall j p, (j < i)%nat -> math_keywords !! j = Some p ->
           ~ occurs_ci (fst p) query) ->
        _enhance_query query = query ++ lit " " ++ additions).
Proof.
  unfold _enhance_query. split; [apply enhance_with_prefix|]. split; [|split].
  - unfold math_keywords. simpl.
    repeat (destruct (contains _ (lower query));
            [rewrite !length_app; simpl; lia|]).
    lia.
  - intros Hnone. apply enhance_with_none. apply Forall_forall. intros p Hp.
    destruct (contains (fst p) (lower query)) eqn:E; [|done].
    exfalso. apply (Hnone p Hp). by apply keyword_contains.
  - intros i k a Hi Hk Hbefore. apply (enhance_with_first _ _ _ i k a); [done| |].
    + apply (keyword_contains query (k, a)); [|done].
      by apply list_elem_of_lookup_2 in Hi.
    + intros j p Hj Hp. destruct (contains (fst p) (lower query)) eqn:E; [|done].
      exfalso. apply (Hbefore j p Hj Hp). apply keyword_contains; [|done].
      by apply list_elem_of_lookup_2 in Hp.
Qed.

Lemma enhance_query_first_keyword_witness :
  _enhance_query (lit "How to FIND x and Solve it")
  = lit "How to FIND x and Solve it" ++ lit " " ++ lit "solution steps method".
Proof.
  apply (proj2 (proj2 (proj2 (enhance_query_first_keyword
           (lit "How to FIND x and Solve it")))) 0%nat (lit "solve")).
  - reflexivity.
  - rewrite <- contains_lower_occurs. by vm_compute.
  - intros j p Hj. exfalso. by apply Nat.nlt_0_r in Hj.
Defined.

End QueryEnhancement.

Section EmbeddingRange.

Import PyStr ErrorHandling Config Hashlib RagService.

Lemma byte_fraction b : (b < 256)%N -> (0 <= Z.of_N b # 255 <= 1)%Q.
Proof.
  intros Hb. unfold Qle. simpl. lia.
Qed.

(** X8: every entry of an embedding lies between 0 and 1, and the entries
    from position 16 on are 0: whatever the text, only the first sixteen
    entries can differ from one embedding to another. *)
Theorem get_free_embedding_range (text : list N) :
  Forall (fun x => (0 <= x <= 1)%Q) (_get_free_embedding text)
  /\ drop 16 (_get_free_embedding text) = repeat 0%Q 368
  /\ (forall text', take 16 (_get_free_embedding text')
                    = take 16 (_get_free_embedding text) ->
        _get_free_embedding text' = _get_free_embedding text).
Proof.
  assert (Hzero : forall n, Forall (fun x => (0 <= x <= 1)%Q) (repeat 0%Q n)).
  { intros n. apply Forall_forall. intros x Hx.
    apply list_elem_of_In, repeat_spec in Hx. subst. split; by intros ?. }
  assert (Hdrop : forall t, drop 16 (_get_free_embedding t) = repeat 0%Q 368).
  { intros t. destruct (encode t) as [data|] eqn:E.
    - rewrite (get_free_embedding_digest _ _ E).
      destruct (md5_digest_bytes data) as [Hlen _].
      rewrite drop_app_length'; [done|]. by rewrite length_map.
    - unfold _get_free_embedding. rewrite E. reflexivity. }
  split; [|split; [apply Hdrop|]].
  - destruct (encode text) as [data|] eqn:E.
    + rewrite (get_free_embedding_digest _ _ E). apply Forall_app. split; [|apply Hzero].
      destruct (md5_digest_bytes data) as [_ Hb].
      induction Hb as [|b l Hb _ IH]; simpl; constructor; [by apply byte_fraction | done].
    + unfold _get_free_embedding. rewrite E. apply Hzero.
  - intros text' H.
    rewrite <- (take_drop 16 (_get_free_embedding text')).
    rewrite <- (take_drop 16 (_get_free_embedding text)).
    by rewrite H, !Hdrop.
Qed.

End EmbeddingRange.

Section ContextAssembly.

Import PyStr ErrorHandling Config Hashlib RagService.

Lemma unique_context_distinct chunks :
  NoDup (map (take 50) chunks) -> unique_context chunks = chunks.
Proof.
  induction chunks as [|c chunks IH] using rev_ind; [done|].
  rewrite map_app. simpl. intros [Hnd [Hc _]]%NoDup_app.
  rewrite unique_context_snoc, IH by done.
  destruct (decide (take 50 c ∈ map (take 50) chunks)) as [Hin|Hout]; [|done].
  exfalso. apply (Hc _ Hin). by apply list_elem_of_singleton.
Qed.

Lemma dedup_keeps_start chunks : forall uc seen,
  uc `prefix_of` fst (foldl dedup_step (uc, seen) chunks).
Proof.
  induction chunks as [|c chunks IH]; intros uc seen; simpl; [done|].
  destruct (decide (take 50 c ∈ seen)); [apply IH|].
  etransitivity; [|apply IH]. by apply prefix_app_r.
Qed.

(** X9: deduplicating twice changes nothing more; passages whose first 50
    characters are pairwise different are all kept; the result is never
    longer than the input; and the first passage always survives, so a
    non-empty list of passages never gives an empty context. *)
Theorem unique_context_idempotent (context_chunks : list (list ascii)) :
  unique_context (unique_context context_chunks) = unique_context context_chunks
  /\ (NoDup (map (take 50) context_chunks) ->
      unique_context context_chunks = context_chunks)
  /\ (length (unique_context context_chunks) <= length context_chunks)%nat
  /\ (forall chunk rest, context_chunks = chunk :: rest ->
        exists kept, unique_context context_chunks = chunk :: kept).
Proof.
  split; [apply unique_context_distinct, unique_context_NoDup|].
  split; [apply unique_context_distinct|].
  split; [apply sublist_length, unique_context_sublist|].
  intros chunk rest ->. unfold unique_context. simpl.
  destruct (decide (take 50 chunk ∈ (∅ : gset (list ascii)))) as [Hin|_];
    [by apply elem_of_empty in Hin|].
  destruct (dedup_keeps_start rest [chunk] ({[take 50 chunk]} ∪ ∅)) as [kept ->].
  by exists kept.
Qed.

End ContextAssembly.

Section RetrievalErrors.

Import PyStr ErrorHandling Config Hashlib RagService Samples.

Lemma passages_length matches : (length (passages matches) <= length matches)%nat.
Proof.
  unfold passages. induction matches as [|m matches IH]; [done|].
  cbn [omap list_omap]. destruct (match_text m); simpl; lia.
Qed.

(** X10: [_get_relevant_context] raises nothing but [VectorDBError]: with the
    fixed text when the index is missing, and with the text of the store's
    exception after a fixed prefix when the query raises, whatever the class
    of that exception.  When it returns, the two lists are equally long and
    no longer than the list of matches the store answered with. *)
Theorem get_relevant_context_errors
    (st : Settings) (self : GeminiRAGService) (query : list ascii)
    (n_results : option Z) :
  (index self = None ->
   _get_relevant_context st self query n_results
   = Raise (VectorDBError (lit "Pinecone index not initialized")))
  /\ (forall idx e,
        index self = Some idx ->
        idx (query_vector query) (top_k st n_results) = Raise e ->
        _get_relevant_context st self query n_results
        = Raise (VectorDBError (lit "Pinecone search failed: " ++ exn_str e)))
  /\ (forall e, _get_relevant_context st self query n_results = Raise e ->
        exists msg, e = VectorDBError msg)
  /\ (forall docs scores,
        _get_relevant_context st self query n_results = Return (docs, scores) ->
        length docs = length scores
        /\ exists idx r,
             index self = Some idx
             /\ idx (query_vector query) (top_k st n_results) = Return r
             /\ (length docs <= length (extract r))%nat
             /\ (forall matches, r = DictResults matches \/ r = ObjectResults matches ->
                   (length docs <= length matches)%nat))
  /\ top_k st (Some 0) = max_context_chunks st
  /\ top_k st None = max_context_chunks st.
Proof.
  unfold _get_relevant_context. cbv zeta.
  split; [by intros ->|]. split; [by intros idx e -> ->|]. split; [|split; [|done]].
  - intros e. destruct (index self) as [idx|]; [|intros [= <-]; eauto].
    destruct (idx _ _) as [r|e']; [done|]. intros [= <-]. eauto.
  - intros docs scores. destruct (index self) as [idx|]; [|done].
    destruct (idx (query_vector query) (top_k st n_results)) as [r|e'] eqn:E; [|done].
    intros [= <- <-]. split; [by rewrite !length_map|].
    exists idx, r. split; [done|]. split; [done|].
    assert (Hle : (length (map fst (keep_relevant st (extract r)))
                   <= length (extract r))%nat).
    { rewrite length_map. unfold keep_relevant. apply length_filter. }
    split; [done|]. intros matches [-> | ->]; unfold extract in *;
      pose proof (passages_length matches); lia.
Qed.

Lemma get_relevant_context_errors_witness :
  let down : Index := fun _ _ => Raise (OtherException (lit "connection reset")) in
  _get_relevant_context default_settings (mkService (Some down) working_model)
    (lit "solve x") None
  = Raise (VectorDBError (lit "Pinecone search failed: connection reset")).
Proof.
  cbv zeta.
  exact (proj1 (proj2 (get_relevant_context_errors default_settings
           (mkService (Some (fun _ _ => Raise (OtherException (lit "connection reset"))))
              working_model) (lit "solve x") None)) _ _ eq_refl eq_refl).
Defined.

End RetrievalErrors.

Section RetryShape.

Import PyStr ErrorHandling Config Hashlib RagService Samples.

(** The loop for any model: some number [k] of failed attempts, each
    followed by its sleep, then one last attempt that answers, or that fails
    as the attempt numbered [max_retries - 1]. *)
Lemma retry_loop_shape self prompt max_retries :
  forall remaining attempt w,
    attempt + Z.of_nat (S remaining) = max_retries ->
    exists k,
      (k <= remaining)%nat
      /\ snd (retry_loop self prompt max_retries (S remaining) attempt w)
         = {| calls := (calls w + S k)%nat;
              trace := trace w ++ failed_attempts prompt k attempt
                         ++ [LlmCall prompt] |}
      /\ (forall i, (i < k)%nat ->
            exists e, model self (calls w + i)%nat prompt = Raise e)
      /\ ((exists text,
             fst (retry_loop self prompt max_retries (S remaining) attempt w)
             = Return (Some text)
             /\ model self (calls w + k)%nat prompt = Return text)
          \/ (k = remaining
              /\ exists e,
                   fst (retry_loop self prompt max_retries (S remaining) attempt w)
                   = Raise (retry_failure max_retries e)
                   /\ model self (calls w + k)%nat prompt = Raise e)).
Proof.
  induction remaining as [|r IH]; intros attempt w Hlast; rewrite retry_loop_S;
    unfold generate_content; destruct (model self (calls w) prompt) as [text|e] eqn:E.
  - exists 0%nat. rewrite Nat.add_0_r. simpl.
    split; [lia|]. split; [do 2 f_equal; lia|]. split; [intros i Hi; lia|].
    left. by exists text.
  - destruct (Z.eqb_spec attempt (max_retries - 1)); [|lia].
    exists 0%nat. rewrite Nat.add_0_r. simpl.
    split; [lia|]. split; [do 2 f_equal; lia|]. split; [intros i Hi; lia|].
    right. split; [done|]. by exists e.
  - exists 0%nat. rewrite Nat.add_0_r. simpl.
    split; [lia|]. split; [do 2 f_equal; lia|]. split; [intros i Hi; lia|].
    left. by exists text.
  - destruct (Z.eqb_spec attempt (max_retries - 1)); [lia|].
    destruct (IH (attempt + 1)
                (sleep (2 ^ attempt)
                   {| calls := S (calls w); trace := trace w ++ [LlmCall prompt] |})
                ltac:(lia)) as (k & Hk & Hw & Hfail & Hres).
    exists (S k). split; [lia|]. split; [|split].
    + rewrite Hw. simpl. rewrite <- !app_assoc. simpl. f_equal. lia.
    + intros [|i] Hi; [rewrite Nat.add_0_r; eauto|].
      destruct (Hfail i ltac:(lia)) as [e' He']. exists e'. rewrite <- He'.
      simpl. f_equal. lia.
    + simpl in Hres. replace (calls w + S k)%nat with (S (calls w + k)) by lia.
      destruct Hres as [(text & Hr & Hm)|(-> & e' & Hr & Hm)].
      * left. by exists text.
      * right. split; [done|]. by exists e'.
Qed.

Lemma sum_powers a k :
  0 <= a ->
  foldr Z.add 0 (map (fun i => 2 ^ (a + Z.of_nat i)) (seq 0 k))
  = 2 ^ a * (2 ^ Z.of_nat k - 1).
Proof.
  revert a. induction k as [|k IH]; intros a Ha; [simpl; lia|].
  cbn [seq map foldr]. rewrite <- seq_shift, map_map.
  rewrite (map_ext _ (fun i => 2 ^ ((a + 1) + Z.of_nat i))).
  2:{ intros i. f_equal. lia. }
  rewrite IH, Z.add_0_r, Nat2Z.inj_succ by lia.
  rewrite (Z.pow_succ_r 2 (Z.of_nat k)), (Z.pow_add_r 2 a 1) by lia.
  change (2 ^ 1) with 2. ring.
Qed.

(** X11: whatever the model does, a call with a budget of at least one
    attempt makes between 1 and [max_retries] model calls, all with the same
    prompt; it sleeps once after each call but the last, for 1, 2, 4, ...
    time units, in total one less than 2 to the number of failed calls; it
    ends on the first call that answers, returning that text, or on the
    [max_retries]-th failure, raising [RAGError] with that failure's text. *)
Theorem call_gemini_with_retry_bounded
    (self : GeminiRAGService) (prompt : list ascii) (max_retries : Z) (w : world) :
  1 <= max_retries ->
  exists failures new,
    Z.of_nat failures < max_retries
    /\ snd (_call_gemini_with_retry self prompt max_retries w)
       = {| calls := (calls w + S failures)%nat; trace := trace w ++ new |}
    /\ new = failed_attempts prompt failures 0 ++ [LlmCall prompt]
    /\ attempts new = S failures
    /\ sleeps new = map (fun i => 2 ^ Z.of_nat i) (seq 0 failures)
    /\ foldr Z.add 0 (sleeps new) = 2 ^ Z.of_nat failures - 1
    /\ (forall i, (i < failures)%nat ->
          exists e, model self (calls w + i)%nat prompt = Raise e)
    /\ ((exists text,
           fst (_call_gemini_with_retry self prompt max_retries w) = Return (Some text)
           /\ model self (calls w + failures)%nat prompt = Return text)
        \/ (Z.of_nat (S failures) = max_retries
            /\ exists e,
                 fst (_call_gemini_with_retry self prompt max_retries w)
                 = Raise (retry_failure max_retries e)
                 /\ model self (calls w + failures)%nat prompt = Raise e)).
Proof.
  intros Hmax. unfold _call_gemini_with_retry.
  destruct (Z.to_nat max_retries) as [|r] eqn:Hn; [lia|].
  destruct (retry_loop_shape self prompt max_retries r 0 w ltac:(lia))
    as (k & Hk & Hw & Hfail & Hres).
  exists k, (failed_attempts prompt k 0 ++ [LlmCall prompt]).
  split; [lia|]. split; [done|]. split; [done|].
  assert (Hs : sleeps (failed_attempts prompt k 0 ++ [LlmCall prompt])
               = map (fun i => 2 ^ Z.of_nat i) (seq 0 k)).
  { by rewrite sleeps_app, sleeps_failed, app_nil_r. }
  split; [rewrite attempts_app, attempts_failed; unfold attempts; simpl; lia|].
  split; [done|].
  split.
  { rewrite Hs. pose proof (sum_powers 0 k ltac:(lia)) as H.
    rewrite Z.pow_0_r, Z.mul_1_l in H. by rewrite <- H. }
  split; [done|].
  destruct Hres as [Hres|(-> & Hres)]; [by left | right; split; [lia | done]].
Qed.

Lemma call_gemini_with_retry_bounded_witness :
  1 <= 3
  /\ exists failures new,
       Z.of_nat failures < 3
       /\ snd (_call_gemini_with_retry (mkService None flaky_model) (lit "q") 3 world0)
          = {| calls := (calls world0 + S failures)%nat;
               trace := trace world0 ++ new |}
       /\ new = failed_attempts (lit "q") failures 0 ++ [LlmCall (lit "q")].
Proof.
  assert (H3 : 1 <= 3) by (by intros ?).
  split; [exact H3|].
  destruct (call_gemini_with_retry_bounded (mkService None flaky_model)
              (lit "q") 3 world0 H3) as (k & new & Hk & Hw & Hnew & _).
  by exists k, new.
Defined.

(** X12: [_call_gemini_with_retry] returns [None] exactly when [max_retries]
    is zero or negative, and then it has called nothing and slept for
    nothing. *)
Theorem call_gemini_with_retry_none_iff
    (self : GeminiRAGService) (prompt : list ascii) (max_retries : Z) (w : world) :
  (fst (_call_gemini_with_retry self prompt max_retries w) = Return None
   <-> max_retries <= 0)
  /\ (max_retries <= 0 ->
      _call_gemini_with_retry self prompt max_retries w = (Return None, w)).
Proof.
  unfold _call_gemini_with_retry.
  destruct (Z.to_nat max_retries) as [|r] eqn:Hn.
  - simpl. split; [split; [lia | done] | done].
  - split; [|lia]. split; [|lia]. intros H. exfalso.
    by apply (retry_loop_never_none self prompt max_retries r 0 w ltac:(lia)).
Qed.

End RetryShape.

Section PipelineFacts.

Import PyStr ErrorHandling Config Hashlib RagService Samples.

Variables prompt_head prompt_middle prompt_tail : list ascii.

(** [validate_input] raises nothing but [ValidationError], with one of its
    four texts. *)
Lemma validate_input_raises_only message e :
  validate_input message = Raise e ->
  exists msg,
    e = ValidationError msg
    /\ msg ∈ [lit "Message cannot be empty";
              lit "Message is too long. Please keep it under 2000 characters.";
              lit "Message contains potentially harmful content";
              lit "Message appears to contain excessive repetition"].
Proof.
  unfold validate_input. cbv zeta.
  repeat match goal with |- context [if ?b then _ else _] => destruct b end;
    intros [= <-]; eexists; (split; [reflexivity|]); set_solver.
Qed.

Lemma get_relevant_context_raises_only st self query n e :
  _get_relevant_context st self query n = Raise e -> exists msg, e = VectorDBError msg.
Proof.
  unfold _get_relevant_context. cbv zeta.
  destruct (index self) as [idx|]; [|intros [= <-]; eauto].
  destruct (idx _ _) as [r|e']; [done|]. intros [= <-]. eauto.
Qed.

Lemma sanitize_response_bounded s :
  Z.of_nat (length (sanitize_response s)) <= 5003
  /\ (forall c t, sanitize_response s = c :: t -> is_space c = false)
  /\ (forall t c, sanitize_response s = t ++ [c] -> is_space c = false).
Proof.
  split; [|split].
  - unfold sanitize_response. cbv zeta.
    set (r := re_sub (match_lit (lit "data:")) _).
    pose proof (strip_length
      (if (5000 <? length r)%nat then take 5000 r ++ lit "..." else r)) as Hs.
    destruct (Nat.ltb_spec 5000 (length r)) as [Hr|Hr].
    + rewrite length_app, length_take in Hs.
      change (length (lit "...")) with 3%nat in Hs. lia.
    + lia.
  - intros c t. apply strip_head.
  - intros t c. apply strip_last.
Qed.

Lemma no_information_bounded :
  Z.of_nat (length no_information) <= 5003
  /\ (forall c t, no_information = c :: t -> is_space c = false)
  /\ (forall t c, no_information = t ++ [c] -> is_space c = false).
Proof.
  split; [by vm_compute|]. split.
  - by intros c t [= <- _].
  - intros t c H. apply (f_equal reverse) in H. rewrite reverse_app in H.
    vm_compute in H. by injection H as <- _.
Qed.

Lemma generate_response_outcome st self query w :
  outcome prompt_head prompt_middle prompt_tail st self query w.
Proof.
  destruct (validate_input query) as [[]|e] eqn:Hv.
  2:{ destruct (validate_input_raises_only _ _ Hv) as (msg & -> & _).
      apply (Rejected _ _ _ _ _ _ _ msg); [done|].
      unfold generate_response. by rewrite Hv. }
  destruct (_get_relevant_context st self query None) as [[chunks scores]|e] eqn:Hc.
  2:{ destruct (get_relevant_context_raises_only _ _ _ _ _ Hc) as [msg ->].
      apply (StoreFailed _ _ _ _ _ _ _ msg); [done | done |].
      unfold generate_response. by rewrite Hv, Hc. }
  destruct chunks as [|c chunks].
  { apply (NothingFound _ _ _ _ _ _ _ scores); [done | done |].
    unfold generate_response. by rewrite Hv, Hc. }
  set (prompt := _construct_enhanced_prompt prompt_head prompt_middle prompt_tail
        query (c :: chunks)).
  assert (Hr : generate_response prompt_head prompt_middle prompt_tail st self query w
               = match retry_loop self prompt 3 3 0 w with
                 | (Raise e, w') => (Raise (reraise e), w')
                 | (Return None, w') =>
                     (Raise (reraise (OtherException
                               (lit "expected string or bytes-like object"))), w')
                 | (Return (Some response), w') =>
                     (Return (sanitize_response response), w')
                 end).
  { unfold generate_response. by rewrite Hv, Hc. }
  destruct (retry_loop_shape self prompt 3 2 0 w eq_refl)
    as (k & Hk & Hw & Hfail & Hres).
  apply (ModelCalled _ _ _ _ _ _ _ (c :: chunks) scores k); cbv zeta; try done.
  - rewrite Hr. destruct (retry_loop self prompt 3 3 0 w) as [[[text|]|e] w'];
      by simpl in *.
  - destruct Hres as [(text & Hf & Hm)|(-> & e & Hf & Hm)].
    + left. exists text. split; [done|]. rewrite Hr.
      destruct (retry_loop self prompt 3 3 0 w) as [[[text'|]|e] w']; simpl in *;
        congruence.
    + right. split; [done|]. exists e. split; [done|]. rewrite Hr.
      destruct (retry_loop self prompt 3 3 0 w) as [[[text'|]|e'] w']; simpl in *;
        try congruence.
      by injection Hf as ->.
Qed.

(** X13: validation comes first.  A query that [validate_input] rejects
    makes [generate_response] raise that same [ValidationError], unwrapped
    and with one of the four fixed texts, whatever the settings, the store
    and the model are, and without any model call or sleep. *)
Theorem generate_response_validates_first (query : list ascii) :
  validate_input query = Return tt
  \/ exists msg,
       msg ∈ [lit "Message cannot be empty";
              lit "Message is too long. Please keep it under 2000 characters.";
              lit "Message contains potentially harmful content";
              lit "Message appears to contain excessive repetition"]
       /\ validate_input query = Raise (ValidationError msg)
       /\ forall st self w,
            generate_response prompt_head prompt_middle prompt_tail
                  st self query w = (Raise (ValidationError msg), w).
Proof.
  destruct (validate_input query) as [[]|e] eqn:Hv; [by left | right].
  destruct (validate_input_raises_only _ _ Hv) as (msg & -> & Hmsg).
  exists msg. split; [done|]. split; [done|].
  intros st self w. unfold generate_response. by rewrite Hv.
Qed.

(** X14: for a valid query, a failure of retrieval leaves
    [generate_response] as the [VectorDBError] that [_get_relevant_context]
    raised, not wrapped a second time, and the model is not called: with the
    fixed text when there is no index, and with the text of the store's own
    exception after ["Pinecone search failed: "] when the search raises.
    The search asks for [max_context_chunks] results. *)
Theorem generate_response_store_failure
    (st : Settings) (self : GeminiRAGService) (query : list ascii) (w : world) :
  validate_input query = Return tt ->
  (index self = None ->
   generate_response prompt_head prompt_middle prompt_tail st self query w
   = (Raise (VectorDBError (lit "Pinecone index not initialized")), w))
  /\ (forall idx e,
        index self = Some idx ->
        idx (query_vector query) (max_context_chunks st) = Raise e ->
        generate_response prompt_head prompt_middle prompt_tail st self query w
        = (Raise (VectorDBError (lit "Pinecone search failed: " ++ exn_str e)), w)).
Proof.
  intros Hv. unfold generate_response, _get_relevant_context. rewrite Hv. cbv zeta.
  split; [by intros ->|]. intros idx e -> He. simpl in *. by rewrite He.
Qed.

(** X15: [generate_response] raises nothing but [ValidationError],
    [VectorDBError] and [RAGError]; never [OpenAIError].  The first two come
    from validation and from retrieval, with the world untouched.  The
    third is raised only after three model calls with the same prompt and
    sleeps of 1 and 2 in between, all three calls having failed; its text
    is that of the third failure after ["Gemini API call failed after 3
    attempts: "]. *)
Theorem generate_response_raises_only
    (st : Settings) (self : GeminiRAGService) (query : list ascii) (w : world)
    (e : exn) :
  fst (generate_response prompt_head prompt_middle prompt_tail
        st self query w) = Raise e ->
  (exists msg,
     e = ValidationError msg /\ validate_input query = Raise e
     /\ snd (generate_response prompt_head prompt_middle prompt_tail
           st self query w) = w)
  \/ (exists msg,
        e = VectorDBError msg
        /\ _get_relevant_context st self query None = Raise e
        /\ snd (generate_response prompt_head prompt_middle prompt_tail
              st self query w) = w)
  \/ (exists chunks scores e1 e2 e3,
        let prompt := _construct_enhanced_prompt prompt_head prompt_middle prompt_tail
              query chunks in
        _get_relevant_context st self query None = Return (chunks, scores)
        /\ chunks <> []
        /\ model self (calls w) prompt = Raise e1
        /\ model self (calls w + 1)%nat prompt = Raise e2
        /\ model self (calls w + 2)%nat prompt = Raise e3
        /\ e = RAGError (lit "Gemini API call failed after 3 attempts: "
                           ++ exn_str e3)
        /\ snd (generate_response prompt_head prompt_middle prompt_tail st self query w)
           = {| calls := (calls w + 3)%nat;
                trace := trace w ++ [LlmCall prompt; Sleep 1; LlmCall prompt;
                                     Sleep 2; LlmCall prompt] |}).
Proof.
  intros He.
  destruct (generate_response_outcome st self query w)
    as [msg Hv Hr|msg Hv Hc Hr|scores Hv Hc Hr|chunks scores k prompt r Hv Hc Hne Hk Hw Hfail Hres].
  - rewrite Hr in He |- *. injection He as <-. left. by exists msg.
  - rewrite Hr in He |- *. injection He as <-. right. left. by exists msg.
  - by rewrite Hr in He.
  - right. right. fold r in He |- *.
    destruct Hres as [(text & _ & Hf)|(-> & e3 & Hm & Hf)]; [congruence|].
    destruct (Hfail 0%nat ltac:(lia)) as [e1 H1].
    destruct (Hfail 1%nat ltac:(lia)) as [e2 H2].
    rewrite Nat.add_0_r in H1.
    exists chunks, scores, e1, e2, e3. cbv zeta. fold prompt.
    repeat (split; [done|]). split; [|done].
    rewrite He in Hf. by injection Hf as ->.
Qed.

(** X16: what one call of [generate_response] may do to the world, for any
    query, store and model: it appends to the trace and advances the call
    counter by the number of model calls it made; it makes at most three
    model calls, all with the same prompt, and makes none unless the query
    is valid and retrieval returned at least one passage; it sleeps once
    between two calls, for 1 and then 2, so for no more than 3 in all, and
    never after its last call. *)
Theorem generate_response_effects
    (st : Settings) (self : GeminiRAGService) (query : list ascii) (w : world) :
  exists new,
    snd (generate_response prompt_head prompt_middle prompt_tail st self query w)
    = {| calls := (calls w + attempts new)%nat; trace := trace w ++ new |}
    /\ (attempts new <= 3)%nat
    /\ sleeps new `prefix_of` [1; 2]
    /\ length (sleeps new) = pred (attempts new)
    /\ foldr Z.add 0 (sleeps new) <= 3
    /\ (forall p q, LlmCall p ∈ new -> LlmCall q ∈ new -> p = q)
    /\ (forall t ev, new = t ++ [ev] -> is_call ev = true)
    /\ (new <> [] ->
        validate_input query = Return tt
        /\ exists chunks scores,
             _get_relevant_context st self query None = Return (chunks, scores)
             /\ chunks <> []
             /\ LlmCall (_construct_enhanced_prompt prompt_head prompt_middle prompt_tail
                   query chunks) ∈ new).
Proof.
  assert (Hidle : snd (generate_response prompt_head prompt_middle prompt_tail
        st self query w) = w ->
            exists new,
              snd (generate_response prompt_head prompt_middle prompt_tail
                    st self query w)
              = {| calls := (calls w + attempts new)%nat; trace := trace w ++ new |}
              /\ (attempts new <= 3)%nat
              /\ sleeps new `prefix_of` [1; 2]
              /\ length (sleeps new) = pred (attempts new)
              /\ foldr Z.add 0 (sleeps new) <= 3
              /\ (forall p q, LlmCall p ∈ new -> LlmCall q ∈ new -> p = q)
              /\ (forall t ev, new = t ++ [ev] -> is_call ev = true)
              /\ (new <> [] ->
                  validate_input query = Return tt
                  /\ exists chunks scores,
                       _get_relevant_context st self query None
                       = Return (chunks, scores)
                       /\ chunks <> []
                       /\ LlmCall (_construct_enhanced_prompt prompt_head prompt_middle prompt_tail
                             query chunks) ∈ new)).
  { intros ->. exists []. split.
    { destruct w as [c t]. simpl. unfold attempts. simpl.
      by rewrite Nat.add_0_r, app_nil_r. }
    split; [unfold attempts; simpl; lia|].
    split; [apply prefix_nil|]. split; [done|]. split; [simpl; lia|].
    split; [intros p q Hp; by apply elem_of_nil in Hp|].
    split; [intros [|? ?] ev; discriminate | done]. }
  destruct (generate_response_outcome st self query w)
    as [msg Hv Hr|msg Hv Hc Hr|scores Hv Hc Hr|chunks scores k prompt r Hv Hc Hne Hk Hw Hfail Hres];
    try (apply Hidle; by rewrite Hr).
  clear Hidle. fold r. exists (failed_attempts prompt k 0 ++ [LlmCall prompt]).
  assert (Ha : attempts (failed_attempts prompt k 0 ++ [LlmCall prompt]) = S k).
  { rewrite attempts_app, attempts_failed. unfold attempts. simpl. lia. }
  assert (Hs : sleeps (failed_attempts prompt k 0 ++ [LlmCall prompt])
               = map (fun i => 2 ^ (0 + Z.of_nat i)) (seq 0 k)).
  { by rewrite sleeps_app, sleeps_failed, app_nil_r. }
  rewrite Ha, Hs. split; [done|]. split; [lia|].
  assert (Hk3 : k = 0%nat \/ k = 1%nat \/ k = 2%nat) by lia.
  split; [destruct Hk3 as [-> | [-> | ->]]; simpl;
          [apply prefix_nil | by exists [2] | done]|].
  split; [by rewrite length_map, length_seq|].
  split; [destruct Hk3 as [-> | [-> | ->]]; simpl; lia|].
  split.
  { assert (Hall : forall p, LlmCall p ∈ failed_attempts prompt k 0 ++ [LlmCall prompt]
                             -> p = prompt).
    { intros p. destruct Hk3 as [-> | [-> | ->]]; simpl; set_solver. }
    intros p q Hp Hq. by rewrite (Hall p Hp), (Hall q Hq). }
  split.
  { intros t ev Heq. apply app_inj_tail in Heq as [_ <-]. done. }
  intros _. split; [done|]. exists chunks, scores.
  split; [done|]. split; [done|]. fold prompt. set_solver.
Qed.

(** X17: every answer [generate_response] returns comes from a valid query
    and is either the fixed no-information text, returned with the world
    untouched when retrieval keeps no passage, or [sanitize_response] of the
    text of the first model call that did not fail, the model having been
    called with the prompt built from the query and the retrieved passages.
    Either way the answer is at most 5003 characters long and starts and
    ends with no whitespace. *)
Theorem generate_response_answer
    (st : Settings) (self : GeminiRAGService) (query : list ascii) (w : world)
    (answer : list ascii) :
  fst (generate_response prompt_head prompt_middle prompt_tail
        st self query w) = Return answer ->
  validate_input query = Return tt
  /\ Z.of_nat (length answer) <= 5003
  /\ (forall c t, answer = c :: t -> is_space c = false)
  /\ (forall t c, answer = t ++ [c] -> is_space c = false)
  /\ ((answer = no_information
       /\ snd (generate_response prompt_head prompt_middle prompt_tail
             st self query w) = w
       /\ exists scores, _get_relevant_context st self query None = Return ([], scores))
      \/ (exists chunks scores k text,
            _get_relevant_context st self query None = Return (chunks, scores)
            /\ chunks <> []
            /\ (k <= 2)%nat
            /\ (forall i, (i < k)%nat ->
                  exists e,
                    model self (calls w + i)%nat
                      (_construct_enhanced_prompt prompt_head prompt_middle
                         prompt_tail query chunks)
                    = Raise e)
            /\ model self (calls w + k)%nat
                 (_construct_enhanced_prompt prompt_head prompt_middle
                    prompt_tail query chunks)
               = Return text
            /\ answer = sanitize_response text
            /\ calls (snd (generate_response prompt_head prompt_middle prompt_tail
                  st self query w)) = (calls w + S k)%nat)).
Proof.
  intros Ha.
  destruct (generate_response_outcome st self query w)
    as [msg Hv Hr|msg Hv Hc Hr|scores Hv Hc Hr|chunks scores k prompt r Hv Hc Hne Hk Hw Hfail Hres].
  - by rewrite Hr in Ha.
  - by rewrite Hr in Ha.
  - rewrite Hr in Ha |- *. injection Ha as <-. split; [done|].
    destruct no_information_bounded as (H1 & H2 & H3).
    repeat (split; [done|]). left. split; [done|]. split; [done|]. by exists scores.
  - fold r in Ha |- *.
    destruct Hres as [(text & Hm & Hf)|(_ & e3 & _ & Hf)]; [|congruence].
    rewrite Ha in Hf. injection Hf as ->. split; [done|].
    destruct (sanitize_response_bounded text) as (H1 & H2 & H3).
    repeat (split; [done|]). right. exists chunks, scores, k, text.
    repeat (split; [done|]). by rewrite Hw.
Qed.

End PipelineFacts.

Section PipelineExamples.

Import PyStr ErrorHandling Config Hashlib RagService Samples.

Lemma generate_response_store_failure_witness :
  validate_input (lit "solve x") = Return tt
  /\ generate_response [] [] [] default_settings (mkService None working_model)
       (lit "solve x") world0
     = (Raise (VectorDBError (lit "Pinecone index not initialized")), world0).
Proof.
  assert (Hv : validate_input (lit "solve x") = Return tt) by (by vm_compute).
  split; [exact Hv|].
  exact (proj1 (generate_response_store_failure [] [] [] default_settings
                  (mkService None working_model) (lit "solve x") world0 Hv) eq_refl).
Defined.

Lemma generate_response_raises_only_witness :
  fst (generate_response [] [] [] default_settings
         (mkService (Some sample_index) failing_model) (lit "solve x") world0)
  = Raise (RAGError (lit "Gemini API call failed after 3 attempts: 503 unavailable, call 2"))
  /\ calls (snd (generate_response [] [] [] default_settings
                   (mkService (Some sample_index) failing_model) (lit "solve x")
                   world0))
     = 3%nat.
Proof.
  assert (He : fst (generate_response [] [] [] default_settings
                      (mkService (Some sample_index) failing_model)
                      (lit "solve x") world0)
               = Raise (RAGError (lit "Gemini API call failed after 3 attempts: 503 unavailable, call 2")))
    by (by vm_compute).
  split; [exact He|].
  destruct (generate_response_raises_only [] [] [] default_settings
              (mkService (Some sample_index) failing_model) (lit "solve x") world0 _ He)
    as [(msg & Hm & _)|[(msg & Hm & _)|(chunks & scores & e1 & e2 & e3 & H)]];
    [discriminate..|].
  cbv zeta in H. destruct H as (_ & _ & _ & _ & _ & _ & Hw). by rewrite Hw.
Defined.

Lemma generate_response_answer_witness :
  fst (generate_response [] [] [] default_settings
         (mkService (Some sample_index) flaky_model) (lit "solve x") world0)
  = Return (lit "c = 5")
  /\ validate_input (lit "solve x") = Return tt.
Proof.
  assert (Ha : fst (generate_response [] [] [] default_settings
                      (mkService (Some sample_index) flaky_model)
                      (lit "solve x") world0)
               = Return (lit "c = 5")) by (by vm_compute).
  split; [exact Ha|].
  exact (proj1 (generate_response_answer [] [] [] default_settings
                  (mkService (Some sample_index) flaky_model) (lit "solve x") world0
                  _ Ha)).
Defined.

End PipelineExamples.

Section ErrorResponses.

Import PyStr ErrorHandling.

(** X6: [handle_openai_error] looks at the text of the exception only, and
    only up to the case of its letters.  It answers 429 exactly when the
    text mentions [rate_limit]; 401 exactly when it does not but mentions
    [invalid_api_key]; 402 exactly when it mentions neither but mentions
    [insufficient_quota]; and 502 otherwise.  The body carries one of four
    fixed messages, an empty ["details"] and no ["retry_after"]: nothing of
    the exception's text is sent. *)
Theorem handle_openai_error_classification (exc : exn) :
  let said := fun p => occurs_ci (lit p) (exn_str exc) in
  let r := handle_openai_error exc in
  (status_code r = 429 <-> said "rate_limit")
  /\ (status_code r = 401 <-> ~ said "rate_limit" /\ said "invalid_api_key")
  /\ (status_code r = 402 <->
      ~ said "rate_limit" /\ ~ said "invalid_api_key" /\ said "insufficient_quota")
  /\ (status_code r = 502 <->
      ~ said "rate_limit" /\ ~ said "invalid_api_key" /\ ~ said "insufficient_quota")
  /\ (status_code r, body_type r, body_message r)
       ∈ [(429, lit "RateLimitError",
           lit "API rate limit exceeded. Please try again in a moment.");
          (401, lit "AuthenticationError",
           lit "Invalid API key. Please check your configuration.");
          (402, lit "QuotaExceededError",
           lit "API quota exceeded. Please check your OpenAI account.");
          (502, lit "OpenAIError",
           lit "OpenAI API error occurred. Please try again.")]
  /\ body_details r = Some []
  /\ body_retry_after r = None
  /\ (forall exc', lower (exn_str exc') = lower (exn_str exc) ->
        handle_openai_error exc' = r).
Proof.
  cbv zeta.
  pose proof (contains_lower_occurs (lit "rate_limit") (exn_str exc)) as H1.
  pose proof (contains_lower_occurs (lit "invalid_api_key") (exn_str exc)) as H2.
  pose proof (contains_lower_occurs (lit "insufficient_quota") (exn_str exc)) as H3.
  change (lower (lit "rate_limit")) with (lit "rate_limit") in H1.
  change (lower (lit "invalid_api_key")) with (lit "invalid_api_key") in H2.
  change (lower (lit "insufficient_quota")) with (lit "insufficient_quota") in H3.
  assert (Hlow : forall exc', lower (exn_str exc') = lower (exn_str exc) ->
                   handle_openai_error exc' = handle_openai_error exc).
  { intros exc' Heq. unfold handle_openai_error. cbv zeta. by rewrite Heq. }
  unfold handle_openai_error in *. cbv zeta in *.
  destruct (contains (lit "rate_limit") (lower (exn_str exc))).
  { assert (Hs : occurs_ci (lit "rate_limit") (exn_str exc)) by (by apply H1).
    repeat split; simpl; try done; try tauto; try set_solver. }
  assert (Hn1 : ~ occurs_ci (lit "rate_limit") (exn_str exc)).
  { intros H. by apply H1 in H. }
  destruct (contains (lit "invalid_api_key") (lower (exn_str exc))).
  { assert (Hs : occurs_ci (lit "invalid_api_key") (exn_str exc)) by (by apply H2).
    repeat split; simpl; try done; try tauto; try set_solver. }
  assert (Hn2 : ~ occurs_ci (lit "invalid_api_key") (exn_str exc)).
  { intros H. by apply H2 in H. }
  destruct (contains (lit "insufficient_quota") (lower (exn_str exc))).
  { assert (Hs : occurs_ci (lit "insufficient_quota") (exn_str exc)) by (by apply H3).
    repeat split; simpl; try done; try tauto; try set_solver. }
  assert (Hn3 : ~ occurs_ci (lit "insufficient_quota") (exn_str exc)).
  { intros H. by apply H3 in H. }
  repeat split; simpl; try done; try tauto; try set_solver.
Qed.

End ErrorResponses.

Section ChatFacts.

Import PyStr ErrorHandling Config RateLimiting RagService Main Samples.

Variables prompt_head prompt_middle prompt_tail : list ascii.

Lemma set_window_id rl ip d : requests rl !! ip = Some d -> set_window rl ip d = rl.
Proof.
  intros H. destruct rl as [r mc lr]. unfold set_window. simpl in *.
  f_equal. by apply insert_id.
Qed.

Lemma is_allowed_key rl ip m w now :
  requests (snd (is_allowed rl ip m w now)) !! ip
  = Some (window (snd (is_allowed rl ip m w now)) ip).
Proof.
  destruct (is_allowed_state rl ip m w now) as [d ->].
  rewrite window_set_window. unfold set_window. simpl. apply lookup_insert_eq.
Qed.

(** Where the key is stored already, [get_rate_limit_info] changes nothing. *)
Lemma get_rate_limit_info_state rl key now1 now2 d :
  requests rl !! key = Some d ->
  snd (get_rate_limit_info rl key now1 now2) = rl.
Proof.
  intros H. assert (Hw : window rl key = d) by (unfold window; by rewrite H).
  unfold get_rate_limit_info, get_reset_time. cbv zeta.
  rewrite Hw, (set_window_id rl key d H), Hw, (set_window_id rl key d H).
  by destruct d.
Qed.

Lemma get_rate_limit_info_reset rl key now1 now2 :
  reset_time (fst (get_rate_limit_info rl key now1 now2))
  = match window rl key with
    | [] => now2
    | oldest :: _ => (oldest + inject_Z 60)%Q
    end.
Proof.
  unfold get_rate_limit_info, get_reset_time. cbv zeta.
  rewrite window_set_window. by destruct (window rl key).
Qed.

Lemma chat_refused st svc client message ck rl w :
  fst (check_rate_limit rl client (max_requests_per_minute st) (t_allowed ck)) = false ->
  let rl1 := snd (check_rate_limit rl client (max_requests_per_minute st)
                    (t_allowed ck)) in
  chat prompt_head prompt_middle prompt_tail st svc client message ck rl w
  = (ErrorResponse
       (too_many_requests
          (reset_time (fst (get_rate_limit_info rl1 client (t_info ck) (t_reset ck)))
           - t_retry ck)%Q),
     rl1, w).
Proof.
  intros Hno rl1. unfold chat.
  destruct (check_rate_limit rl client (max_requests_per_minute st) (t_allowed ck))
    as [allowed rl1'] eqn:E.
  simpl in Hno. subst allowed. simpl in rl1. subst rl1. simpl.
  assert (Hkey : requests rl1' !! client = Some (window rl1' client)).
  { replace rl1' with (snd (check_rate_limit rl client (max_requests_per_minute st)
                              (t_allowed ck))) by (by rewrite E).
    apply is_allowed_key. }
  pose proof (get_rate_limit_info_state rl1' client (t_info ck) (t_reset ck) _ Hkey) as Hs.
  destruct (get_rate_limit_info rl1' client (t_info ck) (t_reset ck)) as [info rl2].
  simpl in *. by rewrite Hs.
Qed.

Lemma chat_allowed st svc client message ck rl w :
  fst (check_rate_limit rl client (max_requests_per_minute st) (t_allowed ck)) = true ->
  let rl1 := snd (check_rate_limit rl client (max_requests_per_minute st)
                    (t_allowed ck)) in
  chat prompt_head prompt_middle prompt_tail st svc client message ck rl w
  = match generate_response prompt_head prompt_middle prompt_tail st svc message w with
    | (Return answer, w') =>
        (ChatResponse answer (t_done ck - t_start ck)%Q
           (fst (get_rate_limit_info rl1 client (t_info ck) (t_reset ck))), rl1, w')
    | (Raise e, w') => (ErrorResponse (chat_except e), rl1, w')
    end.
Proof.
  intros Hyes rl1. unfold chat.
  destruct (check_rate_limit rl client (max_requests_per_minute st) (t_allowed ck))
    as [allowed rl1'] eqn:E.
  simpl in Hyes. subst allowed. simpl in rl1. subst rl1. simpl.
  assert (Hkey : requests rl1' !! client = Some (window rl1' client)).
  { replace rl1' with (snd (check_rate_limit rl client (max_requests_per_minute st)
                              (t_allowed ck))) by (by rewrite E).
    apply is_allowed_key. }
  pose proof (get_rate_limit_info_state rl1' client (t_info ck) (t_reset ck) _ Hkey) as Hs.
  destruct (generate_response prompt_head prompt_middle prompt_tail
        st svc message w) as [[answer|e] w']; [|done].
  destruct (get_rate_limit_info rl1' client (t_info ck) (t_reset ck)) as [info rl2].
  simpl in *. by rewrite Hs.
Qed.

(** A response is a 429 exactly when the limiter refused the request. *)
Lemma chat_is_rate_limited st svc client message ck rl w :
  is_rate_limited (fst (fst (chat prompt_head prompt_middle prompt_tail
        st svc client message ck rl w)))
  = negb (fst (check_rate_limit rl client (max_requests_per_minute st) (t_allowed ck))).
Proof.
  destruct (fst (check_rate_limit rl client (max_requests_per_minute st) (t_allowed ck)))
    eqn:E.
  - rewrite (chat_allowed _ _ _ _ _ _ _ E).
    destruct (generate_response prompt_head prompt_middle prompt_tail
          st svc message w) as [[answer|e] w']; [done|].
    by destruct e.
  - by rewrite (chat_refused _ _ _ _ _ _ _ E).
Qed.

Lemma chat_limiter st svc client message ck rl w :
  snd (fst (chat prompt_head prompt_middle prompt_tail st svc client message ck rl w))
  = snd (check_rate_limit rl client (max_requests_per_minute st) (t_allowed ck)).
Proof.
  destruct (fst (check_rate_limit rl client (max_requests_per_minute st) (t_allowed ck)))
    eqn:E.
  - rewrite (chat_allowed _ _ _ _ _ _ _ E).
    by destruct (generate_response prompt_head prompt_middle prompt_tail
          st svc message w) as [[answer|e] w'].
  - by rewrite (chat_refused _ _ _ _ _ _ _ E).
Qed.

Lemma serve_cons st svc client message ck reqs rl w :
  serve prompt_head prompt_middle prompt_tail
        st svc ((client, message, ck) :: reqs) rl w
  = let r := chat prompt_head prompt_middle prompt_tail st svc client message ck rl w in
    let rest := serve prompt_head prompt_middle prompt_tail
          st svc reqs (snd (fst r)) (snd r) in
    (fst (fst r) :: fst (fst rest), snd (fst rest), snd rest).
Proof.
  cbn [serve]. destruct (chat prompt_head prompt_middle prompt_tail
        st svc client message ck rl w) as [[r rl'] w'].
  cbv zeta. simpl. by destruct (serve prompt_head prompt_middle prompt_tail
        st svc reqs rl' w') as [[rs rl''] w''].
Qed.

Lemma serve_limiter st svc reqs : forall rl w,
  snd (fst (serve prompt_head prompt_middle prompt_tail st svc reqs rl w))
  = run (max_requests_per_minute st) rl (calls_of reqs).
Proof.
  induction reqs as [|[[client message] ck] reqs IH]; intros rl w; [done|].
  rewrite serve_cons. cbv zeta. simpl. by rewrite IH, chat_limiter.
Qed.

Lemma serve_served st svc client reqs : forall rl w,
  served client reqs (fst (fst (serve prompt_head prompt_middle prompt_tail
        st svc reqs rl w)))
  = admitted (max_requests_per_minute st) client rl (calls_of reqs).
Proof.
  induction reqs as [|[[c message] ck] reqs IH]; intros rl w; [done|].
  rewrite serve_cons. cbv zeta. cbn [fst snd served calls_of map admitted].
  rewrite chat_is_rate_limited, negb_involutive, chat_limiter. cbn [call_ip call_now call_window].
  f_equal. apply IH.
Qed.

Lemma calls_of_window reqs : Forall (fun c => call_window c = 60) (calls_of reqs).
Proof.
  unfold calls_of. apply Forall_map, Forall_true. by intros [[client message] ck].
Qed.

Lemma calls_of_snoc reqs client message ck :
  calls_of (reqs ++ [(client, message, ck)])
  = calls_of reqs ++ [mkCall client 60 (t_allowed ck)].
Proof. unfold calls_of. by rewrite map_app. Qed.

(** X18: the responses of [chat].  A [ChatResponse] is sent only for a
    request the limiter allowed and carries the answer of
    [generate_response] and the time between the first and the last clock
    reading.  An error response is one of four: 429 [RateLimitExceeded]
    with a [retry_after], sent without running the pipeline, when the
    limiter refused; 400 [ValidationError] with the text of the validation
    failure; 503 [VectorDBError] and 500 [RAGError] with fixed messages.
    No text of a store or model failure reaches the client, and neither
    [OpenAIError] nor [InternalServerError] is ever answered. *)
Theorem chat_response_table
    (st : Settings) (svc : GeminiRAGService) (client : string)
    (message : list ascii) (ck : clock) (rl : AdvancedRateLimiter) (w : world) :
  let allowed :=
    fst (check_rate_limit rl client (max_requests_per_minute st) (t_allowed ck)) in
  let out := chat prompt_head prompt_middle prompt_tail st svc client message ck rl w in
  match fst (fst out) with
  | ChatResponse answer processing_time info =>
      allowed = true
      /\ generate_response prompt_head prompt_middle prompt_tail
            st svc message w = (Return answer, snd out)
      /\ processing_time = (t_done ck - t_start ck)%Q
  | ErrorResponse r =>
      body_details r = None
      /\ ((allowed = false
           /\ snd out = w
           /\ status_code r = 429
           /\ body_type r = lit "RateLimitExceeded"
           /\ body_message r = lit "Too many requests. Please slow down."
           /\ exists seconds, body_retry_after r = Some seconds)
          \/ (allowed = true
              /\ body_retry_after r = None
              /\ (exists e, generate_response prompt_head prompt_middle prompt_tail
                    st svc message w = (Raise e, snd out))
              /\ ((status_code r = 400
                   /\ body_type r = lit "ValidationError"
                   /\ validate_input message = Raise (ValidationError (body_message r)))
                  \/ (status_code r = 503
                      /\ body_type r = lit "VectorDBError"
                      /\ body_message r
                         = lit "Service temporarily unavailable. Please try again later."
                      /\ exists msg,
                           _get_relevant_context st svc message None
                           = Raise (VectorDBError msg))
                  \/ (status_code r = 500
                      /\ body_type r = lit "RAGError"
                      /\ body_message r
                         = lit "Unable to process your request. Please try again."))))
  end.
Proof.
  cbv zeta.
  destruct (fst (check_rate_limit rl client (max_requests_per_minute st) (t_allowed ck)))
    eqn:E.
  2:{ rewrite (chat_refused _ _ _ _ _ _ _ E). simpl. split; [done|]. left.
      repeat (split; [done|]). eauto. }
  rewrite (chat_allowed _ _ _ _ _ _ _ E).
  destruct (generate_response_outcome prompt_head prompt_middle prompt_tail
              st svc message w)
    as [msg Hv Hr|msg Hv Hc Hr|scores Hv Hc Hr|chunks scores k prompt r Hv Hc Hne Hk Hw Hfail Hres].
  - rewrite Hr. simpl. split; [done|]. right. repeat (split; [done|]).
    split; [eauto|]. left. by repeat (split; [done|]).
  - rewrite Hr. simpl. split; [done|]. right. repeat (split; [done|]).
    split; [eauto|]. right. left. repeat (split; [done|]). eauto.
  - rewrite Hr. by simpl.
  - subst r. destruct (generate_response prompt_head prompt_middle prompt_tail
        st svc message w) as [[answer|e] w'] eqn:Hr; simpl in *.
    + done.
    + destruct Hres as [(text & _ & Hf)|(_ & e3 & _ & Hf)]; [done|].
      injection Hf as ->. simpl. split; [done|]. right. repeat (split; [done|]).
      split; [eauto|]. right. right. by repeat (split; [done|]).
Qed.

(** X19: a refused request on a limiter fed from its creation with a limit
    of at least 1.  The body is the 429 one, the pipeline is not run, and the
    stored window of the client is full: it holds exactly [max_requests]
    timestamps.  [retry_after] is the oldest of them plus 60 minus the clock
    reading, so at most 60 when the clock did not go back.  A later check
    for the same client is still refused at any reading up to and including
    the announced reset time, and is allowed at any reading after it. *)
Theorem chat_refused_retry_after
    (st : Settings) (svc : GeminiRAGService) (client : string)
    (message : list ascii) (ck : clock) (cs : list call) (w : world) :
  1 <= max_requests_per_minute st ->
  clock_nondecreasing (cs ++ [mkCall client 60 (t_allowed ck)]) ->
  (t_allowed ck <= t_retry ck)%Q ->
  fst (check_rate_limit (run (max_requests_per_minute st) init cs) client
         (max_requests_per_minute st) (t_allowed ck)) = false ->
  exists oldest rest rl',
    chat prompt_head prompt_middle prompt_tail
          st svc client message ck (run (max_requests_per_minute st) init cs) w
    = (ErrorResponse (too_many_requests (oldest + inject_Z 60 - t_retry ck)%Q), rl', w)
    /\ window rl' client = oldest :: rest
    /\ Z.of_nat (length (oldest :: rest)) = max_requests_per_minute st
    /\ (oldest + inject_Z 60 - t_retry ck <= 60)%Q
    /\ (t_allowed ck <= oldest + inject_Z 60)%Q
    /\ (forall now, (now <= oldest + inject_Z 60)%Q ->
          fst (check_rate_limit rl' client (max_requests_per_minute st) now) = false)
    /\ (forall now, (oldest + inject_Z 60 < now)%Q ->
          fst (check_rate_limit rl' client (max_requests_per_minute st) now) = true).
Proof.
  set (m := max_requests_per_minute st). intros Hm Hc Hretry Hno.
  pose proof (chat_refused st svc client message ck _ w Hno) as Hchat.
  cbv zeta in Hchat. fold m in Hchat.
  unfold check_rate_limit in *.
  set (rl := run m init cs) in *.
  set (rl1 := snd (is_allowed rl client m 60 (t_allowed ck))) in *.
  destruct (is_allowed_rejected _ _ _ _ _ Hno) as [Hwin Hfull]. fold rl1 in Hwin.
  pose proof (run_init_bounded m cs client ltac:(lia)) as Hlen. fold rl in Hlen.
  pose proof (run_init_not_later m cs client 60 (t_allowed ck) Hc) as Hle. fold rl in Hle.
  pose proof (evict_suffix (t_allowed ck - inject_Z 60) (window rl client)) as Hsuf.
  pose proof (suffix_length _ _ Hsuf) as Hsl.
  pose proof (Forall_suffix _ _ _ Hsuf Hle) as Hle'.
  destruct (evict (t_allowed ck - inject_Z 60) (window rl client)) as [|oldest rest] eqn:Ed.
  { simpl in Hfull. lia. }
  pose proof (evict_head _ _ _ _ Ed) as Hhead.
  exists oldest, rest, rl1.
  rewrite get_rate_limit_info_reset, Hwin in Hchat.
  split; [exact Hchat|]. split; [done|]. split; [simpl in *; lia|].
  inversion Hle' as [|? ? Hold _]; subst.
  change (inject_Z 60) with 60%Q in *.
  split; [lra|]. split; [lra|]. split.
  - intros now Hnow. unfold is_allowed. cbv zeta. rewrite Hwin. cbn [evict].
    assert (Qltb oldest (now - inject_Z 60) = false) as ->.
    { apply Qltb_ge. change (inject_Z 60) with 60%Q. lra. }
    destruct (Z.geb_spec (Z.of_nat (length (oldest :: rest))) m); [done|].
    simpl in *. lia.
  - intros now Hnow. unfold is_allowed. cbv zeta. rewrite Hwin. cbn [evict].
    assert (Qltb oldest (now - inject_Z 60) = true) as ->.
    { apply Qltb_lt. change (inject_Z 60) with 60%Q. lra. }
    pose proof (suffix_length _ _ (evict_suffix (now - inject_Z 60) rest)) as Hrest.
    destruct (Z.geb_spec (Z.of_nat (length (evict (now - inject_Z 60) rest))) m); [|done].
    simpl in *. lia.
Qed.

(** X20: every request that reaches [chat] passes through the limiter, and
    the limiter is all that decides what the limiter stores: afterwards it
    is as [check_rate_limit] left it, whatever the message, the service and
    the outcome of the pipeline were.  A request that was not refused has
    its clock reading stored, also when it is then answered with an error;
    a refused one stores nothing; the windows of other clients are as
    before.  Over a session the limiter is the one reached by the checks
    alone. *)
Theorem chat_counts_every_request
    (st : Settings) (svc : GeminiRAGService) (client : string)
    (message : list ascii) (ck : clock) (rl : AdvancedRateLimiter) (w : world) :
  let m := max_requests_per_minute st in
  let out := chat prompt_head prompt_middle prompt_tail st svc client message ck rl w in
  let stored := evict (t_allowed ck - inject_Z 60) (window rl client) in
  snd (fst out) = snd (check_rate_limit rl client m (t_allowed ck))
  /\ (forall svc' message' w',
        snd (fst (chat prompt_head prompt_middle prompt_tail
              st svc' client message' ck rl w')) = snd (fst out))
  /\ window (snd (fst out)) client
     = (if is_rate_limited (fst (fst out)) then stored else stored ++ [t_allowed ck])
  /\ (forall other, other <> client -> window (snd (fst out)) other = window rl other)
  /\ (forall reqs rl0 w0,
        snd (fst (serve prompt_head prompt_middle prompt_tail
              st svc reqs rl0 w0)) = run m rl0 (calls_of reqs)).
Proof.
  cbv zeta. split; [apply chat_limiter|]. split.
  { intros svc' message' w'. by rewrite !chat_limiter. }
  split.
  { rewrite chat_is_rate_limited, chat_limiter. unfold check_rate_limit.
    destruct (fst (is_allowed rl client (max_requests_per_minute st) 60 (t_allowed ck)))
      eqn:E; simpl.
    - by apply is_allowed_accepted in E as [-> _].
    - by apply is_allowed_rejected in E as [-> _]. }
  split.
  { intros other Hne. rewrite chat_limiter. unfold check_rate_limit.
    by apply is_allowed_other. }
  intros reqs rl0 w0. apply serve_limiter.
Qed.

(** X21: the guarantee of the endpoint.  In a session served from a fresh
    limiter with a non-negative limit and clock readings that do not go
    back, no client has more than [max_requests_per_minute] of its requests
    answered with anything but a 429 in any closed interval of 60 seconds,
    whatever the messages, the store and the model. *)
Theorem serve_at_most_per_minute
    (st : Settings) (svc : GeminiRAGService)
    (reqs : list (string * list ascii * clock)) (client : string) (w : world)
    (s : Q) :
  0 <= max_requests_per_minute st ->
  clock_nondecreasing (calls_of reqs) ->
  Z.of_nat (count_between s (s + inject_Z 60)
              (served client reqs (fst (fst (serve prompt_head prompt_middle prompt_tail
                    st svc reqs init w)))))
  <= max_requests_per_minute st.
Proof.
  intros Hm Hc. rewrite serve_served.
  pose proof (calls_of_window reqs) as Hw.
  destruct (calls_of reqs) as [|c cs]; [by unfold count_between|].
  apply (interval_run (max_requests_per_minute st) 60 client (c :: cs) init []
           (call_now c)); [| | |done].
  - apply history_init.
  - intros s'. by unfold count_between.
  - simpl. split; [apply Qle_refl | done].
Qed.

(** X22: and the limiter refuses no more than it must.  After such a
    session, the next request of a client is answered with a 429 exactly
    when [max_requests_per_minute] or more of the client's earlier requests
    that were not refused have a clock reading within the last 60 seconds. *)
Theorem chat_refuses_iff_quota_used
    (st : Settings) (svc : GeminiRAGService)
    (reqs : list (string * list ascii * clock)) (client : string)
    (message : list ascii) (ck : clock) (w : world) :
  clock_nondecreasing (calls_of (reqs ++ [(client, message, ck)])) ->
  let session := serve prompt_head prompt_middle prompt_tail st svc reqs init w in
  let out := chat prompt_head prompt_middle prompt_tail
        st svc client message ck (snd (fst session)) (snd session) in
  is_rate_limited (fst (fst out)) = true
  <-> max_requests_per_minute st
      <= Z.of_nat (count_since (t_allowed ck - inject_Z 60)
                     (served client reqs (fst (fst session)))).
Proof.
  intros Hc. cbv zeta. rewrite calls_of_snoc in Hc.
  rewrite chat_is_rate_limited, serve_served, serve_limiter, negb_true_iff.
  unfold check_rate_limit. set (m := max_requests_per_minute st).
  destruct (history_reached m 60 client (calls_of reqs) (t_allowed ck) Hc
              (calls_of_window reqs)) as (t0 & Hinv & Hnow).
  destruct (history_evict _ _ _ _ _ _ Hinv Hnow) as (_ & _ & _ & Hcount).
  rewrite <- Hcount. split.
  - by intros [_ H]%is_allowed_rejected.
  - intros H.
    destruct (fst (is_allowed (run m init (calls_of reqs)) client m 60 (t_allowed ck)))
      eqn:E; [|done].
    apply is_allowed_accepted in E as [_ E]. lia.
Qed.

End ChatFacts.

Section ChatExamples.

Import PyStr ErrorHandling Config RateLimiting RagService Main Samples.

Lemma chat_refused_retry_after_witness :
  exists oldest rest rl',
    chat [] [] [] (mkSettings "gemini-2.0-flash" (2 # 10) 1200 384 2 5 (7 # 10))
      (mkService (Some sample_index) working_model) "a" (lit "solve x")
      (mkClock 20 20 20 20 21 22)
      (run 2 init [mkCall "a" 60 0; mkCall "a" 60 10]) world0
    = (ErrorResponse (too_many_requests (oldest + inject_Z 60 - 21)%Q), rl', world0)
    /\ window rl' "a" = oldest :: rest.
Proof.
  destruct (chat_refused_retry_after [] [] []
              (mkSettings "gemini-2.0-flash" (2 # 10) 1200 384 2 5 (7 # 10))
              (mkService (Some sample_index) working_model) "a" (lit "solve x")
              (mkClock 20 20 20 20 21 22) [mkCall "a" 60 0; mkCall "a" 60 10] world0)
    as (oldest & rest & rl' & Hchat & Hwin & _).
  - by intros ?.
  - simpl. repeat split; by intros ?.
  - by intros ?.
  - reflexivity.
  - by exists oldest, rest, rl'.
Defined.

Lemma serve_at_most_per_minute_witness :
  let st := mkSettings "gemini-2.0-flash" (2 # 10) 1200 384 2 5 (7 # 10) in
  let svc := mkService (Some sample_index) working_model in
  let reqs := [("a"%string, lit "solve x", mkClock 0 0 0 0 1 2);
               ("a"%string, lit "", mkClock 10 10 10 10 11 12);
               ("a"%string, lit "solve y", mkClock 20 20 20 20 21 22);
               ("a"%string, lit "solve z", mkClock 61 61 61 61 62 63)] in
  served "a" reqs (fst (fst (serve [] [] [] st svc reqs init world0)))
  = [0%Q; 10%Q; 61%Q]
  /\ Z.of_nat (count_between 0 (0 + inject_Z 60)
                 (served "a" reqs (fst (fst (serve [] [] [] st svc reqs init world0)))))
     <= 2.
Proof.
  cbv zeta. split; [by vm_compute|].
  apply (serve_at_most_per_minute [] [] []
           (mkSettings "gemini-2.0-flash" (2 # 10) 1200 384 2 5 (7 # 10))).
  - by intros ?.
  - simpl. repeat split; by intros ?.
Defined.

Lemma chat_refuses_iff_quota_used_witness :
  let st := mkSettings "gemini-2.0-flash" (2 # 10) 1200 384 2 5 (7 # 10) in
  let svc := mkService (Some sample_index) working_model in
  let reqs := [("a"%string, lit "solve x", mkClock 0 0 0 0 1 2);
               ("a"%string, lit "", mkClock 10 10 10 10 11 12)] in
  let session := serve [] [] [] st svc reqs init world0 in
  is_rate_limited
    (fst (fst (chat [] [] [] st svc "a" (lit "solve y") (mkClock 20 20 20 20 21 22)
                 (snd (fst session)) (snd session)))) = true
  <-> 2 <= Z.of_nat (count_since (20 - inject_Z 60)
                       (served "a" reqs (fst (fst session)))).
Proof.
  cbv zeta.
  apply (chat_refuses_iff_quota_used [] [] []
           (mkSettings "gemini-2.0-flash" (2 # 10) 1200 384 2 5 (7 # 10))
           (mkService (Some sample_index) working_model)
           [("a"%string, lit "solve x", mkClock 0 0 0 0 1 2);
            ("a"%string, lit "", mkClock 10 10 10 10 11 12)]
           "a" (lit "solve y") (mkClock 20 20 20 20 21 22) world0).
  simpl. repeat split; by intros ?.
Defined.

End ChatExamples.
